(** * Railgun_V1.9.ipynb: the railgun integrator and the current search

    A shallow embedding of the code cells of the notebook
    [src/Railgun_V1.9.ipynb] (cells 10, 13, 18, 20, 24, 25, 30, 31).

    Numbers.  The notebook computes with Python floats and [np.log].  They
    are idealised here as the real numbers of the Standard Library, with
    [ln] for [np.log], [x ^ 2] for [x**2] and [x / y * z] read as
    [(x / y) * z], as Python does.  Rounding is therefore outside the model,
    and so are the two places where Python leaves ordinary arithmetic:
    [np.log] of a non-positive number and a division by [m = 0]; the
    theorems that depend on them assume [0 < D], [0 < w] and [0 < m].

    State.  Every variable of the notebook is a global that the cells read
    and overwrite, so the state is one record of all of them and every
    statement is a function on that record.

    Loops.  A [while] loop has no bound in the source.  It is run here with
    fuel: [None] means that the fuel ran out, and a loop that yields [None]
    for every amount of fuel is one that never exits. *)

From Stdlib Require Import Reals Lra Lia ZArith Classical.

Open Scope R_scope.

(** ** The global variables *)

Record globals : Type := mkGlobals {
  D : R;          (* cell 10: separation of the rails *)
  w : R;          (* cell 10: width of the rails *)
  L : R;          (* cell 10: length of the rails *)
  m : R;          (* cell 10: mass *)
  I : R;          (* cell 10, 24, 30: current *)
  barpos : R;     (* cell 13: position of the bar *)
  dt : R;         (* cell 13: timestep *)
  t : R;          (* cell 13: time *)
  v : R;          (* cell 13: velocity *)
  Muover2pi : R;  (* cell 18: magnetic constant *)
  Fnet : R;       (* assigned inside the loops *)
  I_start : R;    (* cell 24, 30 *)
  v_goal : R      (* cell 24, 30 *)
}.

(** Assignments [x = r]. *)

Definition set_I (r : R) (e : globals) : globals :=
  mkGlobals (D e) (w e) (L e) (m e) r (barpos e) (dt e) (t e) (v e)
            (Muover2pi e) (Fnet e) (I_start e) (v_goal e).

Definition set_barpos (r : R) (e : globals) : globals :=
  mkGlobals (D e) (w e) (L e) (m e) (I e) r (dt e) (t e) (v e)
            (Muover2pi e) (Fnet e) (I_start e) (v_goal e).

Definition set_t (r : R) (e : globals) : globals :=
  mkGlobals (D e) (w e) (L e) (m e) (I e) (barpos e) (dt e) r (v e)
            (Muover2pi e) (Fnet e) (I_start e) (v_goal e).

Definition set_v (r : R) (e : globals) : globals :=
  mkGlobals (D e) (w e) (L e) (m e) (I e) (barpos e) (dt e) (t e) r
            (Muover2pi e) (Fnet e) (I_start e) (v_goal e).

Definition set_Fnet (r : R) (e : globals) : globals :=
  mkGlobals (D e) (w e) (L e) (m e) (I e) (barpos e) (dt e) (t e) (v e)
            (Muover2pi e) r (I_start e) (v_goal e).

Definition set_I_start (r : R) (e : globals) : globals :=
  mkGlobals (D e) (w e) (L e) (m e) (I e) (barpos e) (dt e) (t e) (v e)
            (Muover2pi e) (Fnet e) r (v_goal e).

Definition set_v_goal (r : R) (e : globals) : globals :=
  mkGlobals (D e) (w e) (L e) (m e) (I e) (barpos e) (dt e) (t e) (v e)
            (Muover2pi e) (Fnet e) (I_start e) r.

(** Cells 10, 13 and 18: the values the notebook gives its variables before
    the first loop.  [Fnet], [I_start] and [v_goal] are not bound yet at
    that point; they are written before they are read, and stand at 0
    here. *)

Definition notebook_globals : globals :=
  mkGlobals 0.15 0.1 10 1 10000 0 0.00001 0 0 2e-7 0 0 0.

(** Cell 24 (and, with the same four assignments, cell 30). *)

Definition cell24 (e : globals) : globals :=
  let e := set_I_start 100000 e in
  let e := set_I (I_start e) e in
  let e := set_v 0 e in
  set_v_goal 2733 e.

Definition cell30 : globals -> globals := cell24.

(** ** The loop bodies *)

(** Lines 200-202 (cell 20) and, identically, lines 259-261 (cell 25). *)

Definition bare_body (e : globals) : globals :=
  let e := set_Fnet (2 * Muover2pi e * (I e ^ 2)
                     * (ln (D e + w e / 2) - ln (w e / 2))) e in
  let e := set_v (v e + Fnet e / m e * dt e) e in
  set_barpos (barpos e + v e * dt e) e.

(** Lines 352-356 (cell 31). *)

Definition aug_body (e : globals) : globals :=
  let e := set_I (I e - 2 * Muover2pi e * I e
                        * (ln (D e + w e / 2) - ln (w e / 2)) * v e) e in
  let e := set_Fnet (2 * Muover2pi e * (I e ^ 2)
                     * (ln (D e + w e / 2) - ln (w e / 2)) - 9.8 * m e) e in
  let e := set_v (v e + Fnet e / m e * dt e) e in
  let e := set_barpos (barpos e + v e * dt e) e in
  set_t (t e + dt e) e.

(** ** The loops *)

Fixpoint while (cond : globals -> bool) (body : globals -> globals)
         (fuel : nat) (e : globals) : option globals :=
  match fuel with
  | O => None
  | S n => if cond e then while cond body n (body e) else Some e
  end.

(** [barpos < L] *)

Definition on_rail (e : globals) : bool :=
  if Rlt_dec (barpos e) (L e) then true else false.

(** Cell 20, lines 199-202; the cell then prints [v]. *)

Definition bare_loop : nat -> globals -> option globals :=
  while on_rail bare_body.

(** Lines 351-356, the inner loop of cell 31. *)

Definition aug_loop : nat -> globals -> option globals :=
  while on_rail aug_body.

(** Lines 255-256 and 348-349: the two resets at the head of a trial. *)

Definition reset_bar (e : globals) : globals :=
  let e := set_barpos 0 e in
  set_v 0 e.

(** Line 262. *)

Definition bare_next (e : globals) : globals :=
  set_I (I e * 1.01) e.

(** Lines 357-358. *)

Definition aug_next (e : globals) : globals :=
  let e := set_I_start (I_start e * 1.01) e in
  set_I (I_start e) e.

(** Cell 25, lines 254-262.  One unit of fuel is spent per trial, and the
    inner loop of a trial runs on what is left; more fuel never changes a
    result ([while_fuel_mono]). *)

Fixpoint bare_search (fuel : nat) (e : globals) : option globals :=
  match fuel with
  | O => None
  | S n =>
      if Rle_dec (v e) (v_goal e) then
        match bare_loop n (reset_bar e) with
        | Some e1 => bare_search n (bare_next e1)
        | None => None
        end
      else Some e
  end.

(** Cell 31, lines 347-358. *)

Fixpoint aug_search (fuel : nat) (e : globals) : option globals :=
  match fuel with
  | O => None
  | S n =>
      if Rle_dec (v e) (v_goal e) then
        match aug_loop n (reset_bar e) with
        | Some e1 => aug_search n (aug_next e1)
        | None => None
        end
      else Some e
  end.

(** Lines 263 and 359: the two numbers of the final [print], the velocity
    and "the current you need". *)

Definition report (e : globals) : R * R := (v e, I e / 1.01).

(** The state after [n] passes through a loop body. *)

Definition after (body : globals -> globals) (n : nat) (e : globals)
  : globals := Nat.iter n body e.

Arguments after body n e : simpl never.

(** The logarithmic factor of the force, as the source writes it. *)

Definition loggap (e : globals) : R := ln (D e + w e / 2) - ln (w e / 2).

(** What [bare_body] adds to [v] in one pass: [Fnet/m*dt]. *)

Definition bare_dv (e : globals) : R :=
  2 * Muover2pi e * (I e ^ 2) * loggap e / m e * dt e.

(** The variables that no loop assigns. *)

Definition same_constants (e e' : globals) : Prop :=
  D e' = D e /\ w e' = w e /\ L e' = L e /\ m e' = m e /\ dt e' = dt e /\
  Muover2pi e' = Muover2pi e /\ v_goal e' = v_goal e.

(** The state in which cells 25 and 31 start: cells 10, 13 and 18, then
    cell 24 (cell 30).  The loops the notebook has run in between leave
    other values in [barpos] and [Fnet]; both are overwritten by the
    search before they are read. *)

Definition search_start : globals := cell30 notebook_globals.

(** The notebook's values with a coarse timestep [dt = 1], a trial current
    [I0] (in [I] and [I_start]) and a target velocity [vg]. *)

Definition coarse_globals (I0 vg : R) : globals :=
  mkGlobals 0.15 0.1 10 1 I0 0 1 0 0 2e-7 0 I0 vg.

(** The same on a rail of 51 m, with a target of 70 m/s. *)

Definition long_rail_globals (I0 : R) : globals :=
  mkGlobals 0.15 0.1 51 1 I0 0 1 0 0 2e-7 0 I0 70.

(** The state in which a search started in [e] begins a trial with the
    current [J]: position and velocity reset (lines 255-256, 348-349), the
    current at [J], every constant as in [e]. *)

Definition trial_state (e : globals) (J : R) : globals :=
  set_I J (reset_bar e).

(** Two states that a loop body cannot tell apart in what it does to the
    motion: the bodies read the constants, [barpos], [v] and [I] only
    ([Fnet] is written before it is read, [t] only feeds [t], and
    [I_start] is not read). *)

Definition same_motion (a b : globals) : Prop :=
  same_constants a b /\ barpos b = barpos a /\ v b = v a /\ I b = I a.

(** The same state with the current reversed. *)

Definition reverse_current (e : globals) : globals := set_I (- I e) e.

(** The geometry and the step are physical: the invariants the
    specification puts on [D], [w], [m], the magnetic constant and [dt]. *)

Definition physical (e : globals) : Prop :=
  0 < D e /\ 0 < w e /\ 0 < m e /\ 0 < Muover2pi e /\ 0 < dt e.

(** * Properties *)

(** ** Loops run with fuel *)

Section While.

Variable cond : globals -> bool.
Variable body : globals -> globals.

Lemma after_shift (n : nat) (e : globals) :
  after body (S n) e = after body n (body e).
Proof. unfold after. apply Nat.iter_succ_r. Qed.

Lemma after_0 (e : globals) : after body 0 e = e.
Proof. reflexivity. Qed.

Lemma after_S (n : nat) (e : globals) :
  after body (S n) e = body (after body n e).
Proof. reflexivity. Qed.

Lemma after_add (n k : nat) (e : globals) :
  after body (n + k) e = after body n (after body k e).
Proof. unfold after. apply Nat.iter_add. Qed.

(** A loop that returns did so after some number [n] of passes: the
    condition held before each of them and fails in the state returned. *)
Lemma while_some_inv (fuel : nat) :
  forall e e', while cond body fuel e = Some e' ->
  exists n, (n < fuel)%nat /\ e' = after body n e /\ cond e' = false /\
            forall j, (j < n)%nat -> cond (after body j e) = true.
Proof.
  induction fuel as [|fuel IH]; intros e e' H; simpl in H; [discriminate|].
  destruct (cond e) eqn:Hc.
  - destruct (IH _ _ H) as (n & Hn & He & Hf & Hj).
    exists (S n). rewrite after_shift. repeat split; auto; [lia|].
    intros [|j] Hlt; [exact Hc|]. rewrite after_shift. apply Hj. lia.
  - inversion H; subst e'. exists O. repeat split; auto; [lia|].
    intros j Hj. lia.
Qed.

(** Conversely, the first state in which the condition fails is returned,
    given more fuel than passes. *)
Lemma while_exits (n : nat) :
  forall e fuel,
  (forall j, (j < n)%nat -> cond (after body j e) = true) ->
  cond (after body n e) = false -> (n < fuel)%nat ->
  while cond body fuel e = Some (after body n e).
Proof.
  induction n as [|n IH]; intros e fuel Hj Hn Hf;
    (destruct fuel as [|fuel]; [lia|]); simpl.
  - rewrite after_0 in Hn. rewrite Hn. reflexivity.
  - pose proof (Hj O ltac:(lia)) as H0. rewrite after_0 in H0. rewrite H0.
    rewrite after_shift. apply IH.
    + intros j Hlt. rewrite <- after_shift. apply Hj. lia.
    + rewrite <- after_shift. exact Hn.
    + lia.
Qed.

(** A loop whose condition holds after every number of passes returns for
    no amount of fuel. *)
Lemma while_diverges (e : globals) :
  (forall n, cond (after body n e) = true) ->
  forall fuel, while cond body fuel e = None.
Proof.
  intros H fuel. destruct (while cond body fuel e) as [e'|] eqn:Hw; auto.
  destruct (while_some_inv _ _ _ Hw) as (n & _ & He & Hf & _).
  subst e'. rewrite H in Hf. discriminate.
Qed.

(** As soon as the condition fails somewhere, the loop returns. *)
Lemma while_terminates (e : globals) (n : nat) :
  cond (after body n e) = false ->
  exists fuel e', while cond body fuel e = Some e'.
Proof.
  revert e. induction n as [|n IH]; intros e Hn.
  - exists 1%nat, e. rewrite after_0 in Hn. simpl. rewrite Hn. reflexivity.
  - rewrite after_shift in Hn. destruct (IH _ Hn) as (fuel & e' & Hw).
    destruct (cond e) eqn:Hc.
    + exists (S fuel), e'. simpl. rewrite Hc. exact Hw.
    + exists 1%nat, e. simpl. rewrite Hc. reflexivity.
Qed.

Lemma while_fuel_mono (fuel : nat) :
  forall fuel' e e', while cond body fuel e = Some e' ->
  (fuel <= fuel')%nat -> while cond body fuel' e = Some e'.
Proof.
  intros fuel' e e' H Hle.
  destruct (while_some_inv _ _ _ H) as (n & Hn & He & Hf & Hj).
  subst e'. apply while_exits; auto. lia.
Qed.

End While.

Lemma on_rail_true (e : globals) : on_rail e = true <-> barpos e < L e.
Proof. unfold on_rail. destruct (Rlt_dec (barpos e) (L e)); split; auto; discriminate. Qed.

Lemma on_rail_false (e : globals) : on_rail e = false <-> L e <= barpos e.
Proof.
unfold on_rail. destruct (Rlt_dec (barpos e) (L e)); split; auto;
  try discriminate; lra.
Qed.

(** ** Numbers: the logarithm of the notebook's geometry *)

Lemma exp_scale (n : nat) (x : R) : exp (INR n * x) = exp x ^ n.
Proof.
  induction n as [|n IH].
  - simpl. rewrite Rmult_0_l. apply exp_0.
  - rewrite S_INR, Rmult_plus_distr_r, Rmult_1_l, exp_plus, IH. simpl. ring.
Qed.

Lemma pow_ratio_lt (a b c d : Z) (n : nat) :
  (0 < b)%Z -> (0 < d)%Z -> (c * b ^ Z.of_nat n < d * a ^ Z.of_nat n)%Z ->
  IZR c / IZR d < (IZR a / IZR b) ^ n.
Proof.
  intros Hb Hd H.
  assert (Hb' : 0 < IZR b) by (apply IZR_lt; exact Hb).
  assert (Hd' : 0 < IZR d) by (apply IZR_lt; exact Hd).
  assert (Hbn : 0 < IZR b ^ n) by (apply pow_lt; exact Hb').
  unfold Rdiv at 2. rewrite Rpow_mult_distr, pow_inv.
  apply (Rmult_lt_reg_r (IZR d * IZR b ^ n)).
  - apply Rmult_lt_0_compat; assumption.
  - replace (IZR c / IZR d * (IZR d * IZR b ^ n)) with (IZR c * IZR b ^ n)
      by (field; lra).
    replace (IZR a ^ n * / IZR b ^ n * (IZR d * IZR b ^ n))
      with (IZR d * IZR a ^ n) by (field; lra).
    rewrite !pow_IZR, <- !mult_IZR. apply IZR_lt. exact H.
Qed.

(** [exp 1.39 > 4], from [exp x >= 1 + x] at [x = 1.39/512]. *)
Lemma ln4_upper : ln 4 < 1.39.
Proof.
  apply exp_lt_inv. rewrite exp_ln by lra.
  replace 1.39 with (INR 512 * (139 / 51200)) by (simpl; lra).
  rewrite exp_scale.
  apply Rlt_le_trans with ((1 + 139 / 51200) ^ 512).
  - replace 4 with (IZR 4 / IZR 1) by lra.
    replace (1 + 139 / 51200) with (IZR 51339 / IZR 51200) by lra.
    apply pow_ratio_lt; [lia | lia | vm_compute; reflexivity].
  - apply pow_incr. split; [lra | apply exp_ineq1_le].
Qed.

(** [exp (-1.38) > 1/4], from [exp x >= 1 + x] at [x = -1.38/256]. *)
Lemma ln4_lower : 1.38 < ln 4.
Proof.
  apply exp_lt_inv. rewrite exp_ln by lra.
  assert (H : / 4 < / exp 1.38).
  { rewrite <- exp_Ropp.
    replace (Ropp 1.38) with (INR 256 * (- (138 / 25600))) by (simpl; lra).
    rewrite exp_scale.
    apply Rlt_le_trans with ((1 + - (138 / 25600)) ^ 256).
    - replace (/ 4) with (IZR 1 / IZR 4) by lra.
      replace (1 + - (138 / 25600)) with (IZR 25462 / IZR 25600) by lra.
      apply pow_ratio_lt; [lia | lia | vm_compute; reflexivity].
    - apply pow_incr. split; [lra | apply exp_ineq1_le]. }
  assert (Hp : 0 < exp 1.38) by apply exp_pos.
  destruct (Rlt_le_dec (exp 1.38) 4) as [Hlt|Hge]; [exact Hlt|].
  apply Rinv_le_contravar in Hge; lra.
Qed.

(** With [D = 0.15] and [w = 0.1] the factor is [ln 0.2 - ln 0.05 = ln 4]. *)
Lemma loggap_notebook (e : globals) :
  D e = 0.15 -> w e = 0.1 -> loggap e = ln 4.
Proof.
  intros HD Hw. unfold loggap. rewrite HD, Hw.
  replace (0.15 + 0.1 / 2) with (4 * (0.1 / 2)) by lra.
  rewrite ln_mult by lra. ring.
Qed.

Lemma loggap_notebook_bounds (e : globals) :
  D e = 0.15 -> w e = 0.1 -> 1.38 < loggap e < 1.39.
Proof.
  intros HD Hw. rewrite (loggap_notebook e HD Hw).
  split; [apply ln4_lower | apply ln4_upper].
Qed.

(** The factor is positive for every physical geometry. *)
Lemma loggap_pos (e : globals) : 0 < D e -> 0 < w e -> 0 < loggap e.
Proof.
  intros HD Hw. unfold loggap.
  assert (ln (w e / 2) < ln (D e + w e / 2)) by (apply ln_increasing; lra).
  lra.
Qed.

(** ** One pass of each loop body *)

Lemma bare_body_Fnet (e : globals) :
  Fnet (bare_body e) = 2 * Muover2pi e * (I e ^ 2) * loggap e.
Proof. reflexivity. Qed.

Lemma bare_body_v (e : globals) : v (bare_body e) = v e + bare_dv e.
Proof. reflexivity. Qed.

Lemma bare_body_barpos (e : globals) :
  barpos (bare_body e) = barpos e + v (bare_body e) * dt e.
Proof. reflexivity. Qed.

Lemma bare_body_frame (e : globals) :
  same_constants e (bare_body e) /\ I (bare_body e) = I e /\
  t (bare_body e) = t e /\ I_start (bare_body e) = I_start e.
Proof. unfold same_constants. simpl. tauto. Qed.

Lemma aug_body_I (e : globals) :
  I (aug_body e) = I e - 2 * Muover2pi e * I e * loggap e * v e.
Proof. reflexivity. Qed.

Lemma aug_body_Fnet (e : globals) :
  Fnet (aug_body e)
  = 2 * Muover2pi e * (I (aug_body e) ^ 2) * loggap e - 9.8 * m e.
Proof. reflexivity. Qed.

Lemma aug_body_v (e : globals) :
  v (aug_body e) = v e + Fnet (aug_body e) / m e * dt e.
Proof. reflexivity. Qed.

Lemma aug_body_barpos (e : globals) :
  barpos (aug_body e) = barpos e + v (aug_body e) * dt e.
Proof. reflexivity. Qed.

Lemma aug_body_t (e : globals) : t (aug_body e) = t e + dt e.
Proof. reflexivity. Qed.

Lemma aug_body_frame (e : globals) :
  same_constants e (aug_body e) /\ I_start (aug_body e) = I_start e.
Proof. unfold same_constants. simpl. tauto. Qed.

Lemma same_constants_refl (e : globals) : same_constants e e.
Proof. unfold same_constants. tauto. Qed.

Lemma same_constants_trans (e1 e2 e3 : globals) :
  same_constants e1 e2 -> same_constants e2 e3 -> same_constants e1 e3.
Proof.
  unfold same_constants. intros (?&?&?&?&?&?&?) (?&?&?&?&?&?&?).
  repeat split; congruence.
Qed.

Lemma same_constants_loggap (e e' : globals) :
  same_constants e e' -> loggap e' = loggap e.
Proof.
  unfold same_constants, loggap. intros (HD&Hw&_). rewrite HD, Hw. reflexivity.
Qed.

Lemma same_constants_physical (e e' : globals) :
  same_constants e e' -> physical e -> physical e'.
Proof.
  unfold same_constants, physical.
  intros (HD&Hw&HL&Hm&Hdt&Hk&_) H. rewrite HD, Hw, Hm, Hdt, Hk. exact H.
Qed.

(** ** The bare loop after [n] passes *)

Lemma after_bare_frame (n : nat) (e : globals) :
  same_constants e (after bare_body n e) /\ I (after bare_body n e) = I e /\
  t (after bare_body n e) = t e /\ I_start (after bare_body n e) = I_start e.
Proof.
  induction n as [|n IH].
  - rewrite after_0. split; [apply same_constants_refl | tauto].
  - rewrite after_S. destruct IH as (Hc & HI & Ht & Hs).
    destruct (bare_body_frame (after bare_body n e)) as (Hc' & HI' & Ht' & Hs').
    split; [eapply same_constants_trans; eassumption|].
    repeat split; congruence.
Qed.

Lemma after_bare_dv (n : nat) (e : globals) :
  bare_dv (after bare_body n e) = bare_dv e.
Proof.
  destruct (after_bare_frame n e) as (Hc & HI & _).
  unfold bare_dv. rewrite (same_constants_loggap _ _ Hc), HI.
  destruct Hc as (_&_&_&Hm&Hdt&Hk&_). rewrite Hm, Hdt, Hk. reflexivity.
Qed.

Lemma after_bare_v (n : nat) (e : globals) :
  v (after bare_body n e) = v e + INR n * bare_dv e.
Proof.
  induction n as [|n IH].
  - rewrite after_0. simpl. ring.
  - rewrite after_S, bare_body_v, after_bare_dv, IH, S_INR. ring.
Qed.

Lemma after_bare_barpos (n : nat) (e : globals) :
  barpos (after bare_body n e)
  = barpos e + INR n * v e * dt e
    + INR n * (INR n + 1) / 2 * bare_dv e * dt e.
Proof.
  induction n as [|n IH].
  - rewrite after_0. simpl. lra.
  - rewrite after_S, bare_body_barpos, <- after_S, after_bare_v, IH.
    destruct (after_bare_frame n e) as ((_&_&_&_&Hdt&_) & _).
    rewrite Hdt, S_INR. field.
Qed.

Lemma bare_loop_returns (e : globals) (n : nat) :
  (forall j, (j < n)%nat -> barpos (after bare_body j e) < L e) ->
  L e <= barpos (after bare_body n e) ->
  forall fuel, (n < fuel)%nat -> bare_loop fuel e = Some (after bare_body n e).
Proof.
  intros Hj Hn fuel Hf. unfold bare_loop. apply while_exits; auto.
  - intros j Hlt. apply on_rail_true.
    destruct (after_bare_frame j e) as ((_&_&HL&_) & _). rewrite HL. auto.
  - apply on_rail_false.
    destruct (after_bare_frame n e) as ((_&_&HL&_) & _). rewrite HL. auto.
Qed.



(** ** Sequences that gain at least a fixed amount per step *)

Lemma seq_unbounded (x : nat -> R) (N : nat) (c : R) :
  0 < c -> (forall n, (N <= n)%nat -> x n + c <= x (S n)) ->
  forall B, exists n, (N <= n)%nat /\ B <= x n.
Proof.
  intros Hc Hstep B.
  assert (Hlin : forall k, x N + INR k * c <= x (N + k)%nat).
  { induction k as [|k IH].
    - rewrite Nat.add_0_r. simpl. lra.
    - rewrite Nat.add_succ_r, S_INR.
      pose proof (Hstep (N + k)%nat ltac:(lia)). lra. }
  destruct (INR_unbounded ((B - x N) / c)) as [k Hk].
  exists (N + k)%nat. split; [lia|].
  pose proof (Hlin k) as H.
  assert (B - x N < INR k * c).
  { apply (Rmult_lt_compat_r c) in Hk; [|exact Hc].
    replace ((B - x N) / c * c) with (B - x N) in Hk by (field; lra). lra. }
  lra.
Qed.

(** ** Termination of the bare loop *)

Lemma bare_dv_nonneg (e : globals) : physical e -> 0 <= bare_dv e.
Proof.
  intros (HD & Hw & Hm & Hk & Hdt). unfold bare_dv.
  pose proof (loggap_pos e HD Hw) as Hl.
  pose proof (pow2_ge_0 (I e)) as HI.
  apply Rmult_le_pos; [|lra].
  apply Rmult_le_pos; [|apply Rlt_le, Rinv_0_lt_compat; exact Hm].
  apply Rmult_le_pos; [|lra].
  apply Rmult_le_pos; lra.
Qed.

Lemma bare_dv_pos (e : globals) : physical e -> I e <> 0 -> 0 < bare_dv e.
Proof.
  intros (HD & Hw & Hm & Hk & Hdt) HI. unfold bare_dv.
  pose proof (loggap_pos e HD Hw) as Hl.
  assert (0 < I e ^ 2) by (apply pow_lt_0_compat_l || (simpl; nra)).
  apply Rmult_lt_0_compat; [|lra].
  apply Rmult_lt_0_compat; [|apply Rinv_0_lt_compat; exact Hm].
  apply Rmult_lt_0_compat; [|lra].
  apply Rmult_lt_0_compat; lra.
Qed.

(** Once the velocity is positive the bar gains at least a fixed distance
    in every pass, so it reaches the end of the rail. *)
Lemma bare_reaches_end (e : globals) (N : nat) :
  physical e -> 0 < v (after bare_body N e) ->
  exists n, L e <= barpos (after bare_body n e).
Proof.
  intros Hp HN.
  pose proof (bare_dv_nonneg e Hp) as Hdv.
  destruct Hp as (_ & _ & _ & _ & Hdt).
  destruct (seq_unbounded (fun n => barpos (after bare_body n e)) N
              (v (after bare_body N e) * dt e)) with (B := L e)
    as (n & _ & Hn).
  - apply Rmult_lt_0_compat; assumption.
  - intros n Hle. rewrite (after_S bare_body n e), bare_body_barpos, <- after_S.
    destruct (after_bare_frame n e) as ((_&_&_&_&Hdt'&_) & _). rewrite Hdt'.
    rewrite !after_bare_v.
    assert (INR N <= INR (S n)) by (apply le_INR; lia).
    assert (INR N * bare_dv e <= INR (S n) * bare_dv e)
      by (apply Rmult_le_compat_r; assumption).
    assert ((v e + INR N * bare_dv e) * dt e
            <= (v e + INR (S n) * bare_dv e) * dt e)
      by (apply Rmult_le_compat_r; lra).
    lra.
  - exists n. exact Hn.
Qed.

Lemma bare_loop_terminates_at (e : globals) (n : nat) :
  L e <= barpos (after bare_body n e) ->
  exists fuel e', bare_loop fuel e = Some e'.
Proof.
  intros Hn. unfold bare_loop. apply (while_terminates _ _ e n).
  apply on_rail_false.
  destruct (after_bare_frame n e) as ((_&_&HL&_) & _). rewrite HL. exact Hn.
Qed.

Lemma bare_velocity_becomes_positive (e : globals) :
  physical e -> I e <> 0 -> exists N, 0 < v (after bare_body N e).
Proof.
  intros Hp HI. pose proof (bare_dv_pos e Hp HI) as Hdv.
  destruct (INR_unbounded (- v e / bare_dv e)) as [N HN].
  exists N. rewrite after_bare_v.
  apply (Rmult_lt_compat_r (bare_dv e)) in HN; [|exact Hdv].
  replace (- v e / bare_dv e * bare_dv e) with (- v e) in HN by (field; lra).
  lra.
Qed.

Lemma bare_loop_terminates (e : globals) :
  physical e -> I e <> 0 -> exists fuel e', bare_loop fuel e = Some e'.
Proof.
  intros Hp HI.
  destruct (bare_velocity_becomes_positive e Hp HI) as [N HN].
  destruct (bare_reaches_end e N Hp HN) as [n Hn].
  apply (bare_loop_terminates_at e n Hn).
Qed.

(** C10.  In the bare loop the net force is the same in every pass,
    whatever the state: [2*Muover2pi*I0^2*(ln(D+w/2) - ln(w/2))].  So every
    pass adds the same constant [c = 2*Muover2pi*I0^2*(...)*dt/m] to the
    velocity, after [n] passes of a run started at rest the velocity is
    [n*c], and for a current [I0 <> 0] the velocities increase strictly and
    the run, started at rest before the end of the rail, returns a strictly
    positive exit velocity. *)
Theorem bare_velocity_linear (e : globals) :
  physical e ->
  let F := 2 * Muover2pi e * (I e ^ 2)
           * (ln (D e + w e / 2) - ln (w e / 2)) in
  let c := F * dt e / m e in
  (forall n, Fnet (after bare_body (S n) e) = F) /\
  (forall n, v (after bare_body (S n) e) = v (after bare_body n e) + c) /\
  (v e = 0 -> forall n, v (after bare_body n e) = INR n * c) /\
  (I e <> 0 ->
     forall n, v (after bare_body n e) < v (after bare_body (S n) e)) /\
  (I e <> 0 -> v e = 0 -> barpos e < L e ->
     exists fuel e', bare_loop fuel e = Some e' /\ 0 < v e').
Proof.
  intros Hp F c.
  assert (Hm : m e <> 0) by (destruct Hp as (_&_&Hm&_); lra).
  assert (Hc : c = bare_dv e) by (unfold c, F, bare_dv, loggap; field; exact Hm).
  split; [|split; [|split; [|split]]].
  - intros n. rewrite after_S, bare_body_Fnet.
    destruct (after_bare_frame n e) as (Hs & HI & _).
    rewrite (same_constants_loggap _ _ Hs), HI.
    destruct Hs as (_&_&_&_&_&Hk&_). rewrite Hk. reflexivity.
  - intros n. rewrite Hc, !after_bare_v, S_INR. ring.
  - intros Hv n. rewrite Hc, after_bare_v, Hv. ring.
  - intros HI n. pose proof (bare_dv_pos e Hp HI).
    rewrite !after_bare_v, S_INR. lra.
  - intros HI Hv Hx.
    destruct (bare_loop_terminates e Hp HI) as (fuel & e' & Hrun).
    exists fuel, e'. split; [exact Hrun|].
    destruct (while_some_inv _ _ _ _ _ Hrun) as (n & _ & He' & Hoff & _).
    apply on_rail_false in Hoff. subst e'.
    destruct n as [|n].
    + rewrite after_0 in Hoff. lra.
    + pose proof (bare_dv_pos e Hp HI) as Hdv.
      rewrite after_bare_v, Hv.
      assert (0 < INR (S n)) by (apply lt_0_INR; lia).
      assert (0 < INR (S n) * bare_dv e) by (apply Rmult_lt_0_compat; assumption).
      lra.
Qed.

(** Cell 20 on the notebook's own values: the loop returns, with a positive
    velocity. *)
Lemma bare_velocity_linear_witness :
  exists fuel e', bare_loop fuel notebook_globals = Some e' /\ 0 < v e'.
Proof.
  assert (Hp : physical notebook_globals)
    by (unfold physical, notebook_globals; simpl; lra).
  apply (bare_velocity_linear notebook_globals Hp).
  - simpl. lra.
  - reflexivity.
  - simpl. lra.
Defined.

(** ** The augmented loop after [n] passes *)

Lemma after_aug_frame (n : nat) (e : globals) :
  same_constants e (after aug_body n e) /\
  I_start (after aug_body n e) = I_start e /\
  t (after aug_body n e) = t e + INR n * dt e.
Proof.
  induction n as [|n IH].
  - rewrite after_0. split; [apply same_constants_refl|]. simpl. split; lra.
  - rewrite after_S. destruct IH as (Hc & Hs & Ht).
    destruct (aug_body_frame (after aug_body n e)) as (Hc' & Hs').
    split; [eapply same_constants_trans; eassumption|].
    split; [congruence|].
    rewrite aug_body_t, Ht, S_INR.
    destruct Hc as (_&_&_&_&Hdt&_). rewrite Hdt. ring.
Qed.

(** The recurrences of the augmented loop, with the constants of the
    starting state: [k = 2*Muover2pi*(ln(D+w/2) - ln(w/2))]. *)
Lemma after_aug_rec (n : nat) (e : globals) :
  let k := 2 * Muover2pi e * loggap e in
  let s := after aug_body n e in
  let s' := after aug_body (S n) e in
  I s' = I s - k * I s * v s /\
  Fnet s' = k * (I s' ^ 2) - 9.8 * m e /\
  v s' = v s + Fnet s' / m e * dt e /\
  barpos s' = barpos s + v s' * dt e.
Proof.
  intros k s s'. unfold s', s, k. rewrite after_S.
  destruct (after_aug_frame n e) as (Hc & _).
  rewrite aug_body_barpos, aug_body_v, aug_body_Fnet, aug_body_I.
  rewrite (same_constants_loggap _ _ Hc).
  destruct Hc as (_&_&_&Hm&Hdt&Hk&_). rewrite Hm, Hdt, Hk.
  repeat split; ring.
Qed.

(** ** A velocity that stays positive carries the bar arbitrarily far *)

Section AugSequence.

Variables (k G mass h : R) (Iq Fq vq xq : nat -> R) (N : nat).

Hypothesis k_pos : 0 < k.
Hypothesis mass_pos : 0 < mass.
Hypothesis h_pos : 0 < h.
Hypothesis Iq_rec : forall n, Iq (S n) = Iq n - k * Iq n * vq n.
Hypothesis Fq_rec : forall n, Fq (S n) = k * (Iq (S n) ^ 2) - G * mass.
Hypothesis vq_rec : forall n, vq (S n) = vq n + Fq (S n) / mass * h.
Hypothesis xq_rec : forall n, xq (S n) = xq n + vq (S n) * h.
Hypothesis vq_pos : forall n, (N <= n)%nat -> 0 < vq n.

(** If the positions were bounded, the velocities would become small. *)
Lemma bounded_positions_small_velocities (B : R) :
  (forall n, xq n < B) ->
  exists M, (N <= M)%nat /\ forall n, (M <= n)%nat -> k * vq n < 1.
Proof.
  intros Hb.
  set (y := fun n => xq (N + n)%nat).
  assert (Hgrow : Un_growing y).
  { intros n. unfold y. rewrite Nat.add_succ_r, xq_rec.
    pose proof (vq_pos (S (N + n)) ltac:(lia)). nra. }
  assert (Hub : has_ub y).
  { exists B. intros r [i Hi]. subst r. apply Rlt_le, Hb. }
  destruct (growing_cv y Hgrow Hub) as [l Hl].
  assert (Heps : 0 < h / (2 * k))
    by (apply Rdiv_lt_0_compat; lra).
  destruct (Hl _ Heps) as [N0 HN0].
  exists (S (N + N0)). split; [lia|].
  intros n Hn.
  destruct n as [|n]; [lia|].
  assert (Hn' : exists j, (N0 <= j)%nat /\ n = (N + j)%nat)
    by (exists (n - N)%nat; lia).
  destruct Hn' as (j & Hj & ->).
  pose proof (HN0 j ltac:(lia)) as H1.
  pose proof (HN0 (S j) ltac:(lia)) as H2.
  unfold R_dist in H1, H2.
  apply Rabs_def2 in H1. apply Rabs_def2 in H2.
  assert (Hd : y (S j) - y j < h / k).
  { replace (h / k) with (h / (2 * k) + h / (2 * k)) by (field; lra). lra. }
  unfold y in Hd. rewrite Nat.add_succ_r, xq_rec in Hd.
  assert (Hvh : vq (S (N + j)) * h < h / k) by lra.
  apply (Rmult_lt_reg_r h); [exact h_pos|].
  apply (Rmult_lt_compat_l k) in Hvh; [|exact k_pos].
  replace (k * (h / k)) with h in Hvh by (field; lra). lra.
Qed.

Lemma positive_velocity_unbounded_position (B : R) : exists n, B <= xq n.
Proof.
  apply NNPP. intros Hno.
  assert (Hb : forall n, xq n < B).
  { intros n. apply Rnot_le_lt. intros Hle. apply Hno. exists n. exact Hle. }
  destruct (bounded_positions_small_velocities B Hb) as (M & HM & Hsmall).
  (* from M on the current shrinks in size, so the force cannot grow *)
  assert (Hsq : forall n, (M <= n)%nat -> Iq (S n) ^ 2 <= Iq n ^ 2).
  { intros n Hn. rewrite Iq_rec.
    pose proof (Hsmall n Hn) as H1. pose proof (vq_pos n ltac:(lia)) as H2.
    replace (Iq n - k * Iq n * vq n) with (Iq n * (1 - k * vq n)) by ring.
    rewrite Rpow_mult_distr.
    assert (0 < k * vq n) by (apply Rmult_lt_0_compat; assumption).
    assert (0 <= (1 - k * vq n) ^ 2 <= 1) by (simpl; nra).
    pose proof (pow2_ge_0 (Iq n)). nra. }
  assert (Hdec : forall n, (M <= n)%nat -> Fq (S (S n)) <= Fq (S n)).
  { intros n Hn. rewrite !Fq_rec.
    pose proof (Hsq (S n) ltac:(lia)). nra. }
  destruct (classic (exists n0, (M <= n0)%nat /\ Fq (S n0) < 0))
    as [(n0 & Hn0 & Hneg) | Hnone].
  - (* a negative force stays negative: the velocity falls below zero *)
    assert (Hle : forall j, Fq (S (n0 + j)) <= Fq (S n0)).
    { induction j as [|j IH].
      - rewrite Nat.add_0_r. lra.
      - rewrite Nat.add_succ_r.
        pose proof (Hdec (n0 + j)%nat ltac:(lia)). lra. }
    set (d := - Fq (S n0) / mass * h).
    assert (Hd : 0 < d).
    { unfold d. apply Rmult_lt_0_compat; [|exact h_pos].
      apply Rdiv_lt_0_compat; lra. }
    destruct (seq_unbounded (fun n => - vq n) n0 d Hd) with (B := 0)
      as (n & Hn & Hv).
    + intros n Hn. rewrite vq_rec.
      assert (Hj : exists j, n = (n0 + j)%nat) by (exists (n - n0)%nat; lia).
      destruct Hj as (j & ->). pose proof (Hle j) as HF.
      assert (Fq (S (n0 + j)) / mass * h <= Fq (S n0) / mass * h).
      { apply Rmult_le_compat_r; [lra|].
        apply Rmult_le_compat_r; [apply Rlt_le, Rinv_0_lt_compat; lra|lra]. }
      unfold d. lra.
    + pose proof (vq_pos n ltac:(lia)). lra.
  - (* the force is never negative: the velocity never falls *)
    assert (Hnn : forall n, (M <= n)%nat -> 0 <= Fq (S n)).
    { intros n Hn. apply Rnot_lt_le. intros Hlt. apply Hnone.
      exists n. split; assumption. }
    assert (Hv : forall j, vq M <= vq (M + j)%nat).
    { induction j as [|j IH].
      - rewrite Nat.add_0_r. lra.
      - rewrite Nat.add_succ_r, vq_rec.
        pose proof (Hnn (M + j)%nat ltac:(lia)).
        assert (0 <= Fq (S (M + j)) / mass * h).
        { apply Rmult_le_pos; [|lra].
          apply Rmult_le_pos; [lra|apply Rlt_le, Rinv_0_lt_compat; lra]. }
        lra. }
    pose proof (vq_pos M HM) as HvM.
    destruct (seq_unbounded xq M (vq M * h)) with (B := B) as (n & _ & Hn).
    + apply Rmult_lt_0_compat; assumption.
    + intros n Hn. rewrite xq_rec.
      assert (Hj : exists j, S n = (M + j)%nat) by (exists (S n - M)%nat; lia).
      destruct Hj as (j & Hj). rewrite Hj. pose proof (Hv j).
      assert (vq M * h <= vq (M + j) * h) by (apply Rmult_le_compat_r; lra).
      lra.
    + pose proof (Hb n). lra.
Qed.

End AugSequence.

Lemma after_bare_rec (n : nat) (e : globals) :
  let s := after bare_body n e in
  let s' := after bare_body (S n) e in
  Fnet s' = 2 * Muover2pi e * (I e ^ 2) * loggap e /\
  v s' = v s + Fnet s' / m e * dt e /\
  barpos s' = barpos s + v s' * dt e.
Proof.
  intros s s'. unfold s', s. rewrite after_S.
  destruct (after_bare_frame n e) as (Hc & HI & _).
  rewrite bare_body_barpos, bare_body_v, bare_body_Fnet. unfold bare_dv.
  rewrite (same_constants_loggap _ _ Hc), HI.
  destruct Hc as (_&_&_&Hm&Hdt&Hk&_). rewrite Hm, Hdt, Hk.
  repeat split; ring.
Qed.

(** A force that is never positive leaves a bar at rest behind its start. *)
Lemma stuck_sequence (Fq vq xq : nat -> R) (mass h Lr : R) :
  0 < mass -> 0 < h ->
  (forall n, vq (S n) = vq n + Fq (S n) / mass * h) ->
  (forall n, xq (S n) = xq n + vq (S n) * h) ->
  xq O < Lr -> vq O <= 0 -> (forall n, Fq (S n) <= 0) ->
  forall n, vq n <= 0 /\ xq n < Lr.
Proof.
  intros Hm Hh Hv Hx Hx0 Hv0 HF n. induction n as [|n (IHv & IHx)].
  - split; assumption.
  - assert (Hstep : Fq (S n) / mass * h <= 0).
    { pose proof (HF n) as HFn. pose proof (Rinv_0_lt_compat mass Hm) as Hi.
      assert (Fq (S n) * / mass <= 0) by nra.
      unfold Rdiv. nra. }
    assert (Hvn : vq (S n) <= 0) by (rewrite Hv; lra).
    split; [exact Hvn|]. rewrite Hx.
    assert (vq (S n) * h <= 0) by nra. lra.
Qed.

Lemma loop_diverges_on_rail (body : globals -> globals) (e : globals) :
  (forall n, barpos (after body n e) < L (after body n e)) ->
  forall fuel, while on_rail body fuel e = None.
Proof.
  intros H. apply while_diverges. intros n. apply on_rail_true. apply H.
Qed.

Lemma aug_loop_terminates_at (e : globals) (n : nat) :
  L e <= barpos (after aug_body n e) ->
  exists fuel e', aug_loop fuel e = Some e'.
Proof.
  intros Hn. unfold aug_loop. apply (while_terminates _ _ e n).
  apply on_rail_false.
  destruct (after_aug_frame n e) as ((_&_&HL&_) & _). rewrite HL. exact Hn.
Qed.

Lemma bare_loop_stuck (e : globals) :
  0 < m e -> 0 < dt e -> barpos e < L e -> v e <= 0 ->
  (forall n, Fnet (after bare_body (S n) e) <= 0) ->
  (forall n, v (after bare_body n e) <= 0) /\
  (forall fuel, bare_loop fuel e = None).
Proof.
  intros Hm Hdt Hx Hv HF.
  assert (Hinv : forall n, v (after bare_body n e) <= 0 /\
                           barpos (after bare_body n e) < L e).
  { apply (stuck_sequence (fun n => Fnet (after bare_body n e))
             (fun n => v (after bare_body n e))
             (fun n => barpos (after bare_body n e)) (m e) (dt e) (L e));
      auto; intros n; apply (after_bare_rec n e). }
  split; [intros n; apply Hinv|].
  unfold bare_loop. apply loop_diverges_on_rail. intros n.
  destruct (after_bare_frame n e) as ((_&_&HL&_) & _). rewrite HL.
  apply Hinv.
Qed.

Lemma aug_loop_stuck (e : globals) :
  0 < m e -> 0 < dt e -> barpos e < L e -> v e <= 0 ->
  (forall n, Fnet (after aug_body (S n) e) <= 0) ->
  (forall n, v (after aug_body n e) <= 0) /\
  (forall fuel, aug_loop fuel e = None).
Proof.
  intros Hm Hdt Hx Hv HF.
  assert (Hinv : forall n, v (after aug_body n e) <= 0 /\
                           barpos (after aug_body n e) < L e).
  { apply (stuck_sequence (fun n => Fnet (after aug_body n e))
             (fun n => v (after aug_body n e))
             (fun n => barpos (after aug_body n e)) (m e) (dt e) (L e));
      auto; intros n; apply (after_aug_rec n e). }
  split; [intros n; apply Hinv|].
  unfold aug_loop. apply loop_diverges_on_rail. intros n.
  destruct (after_aug_frame n e) as ((_&_&HL&_) & _). rewrite HL.
  apply Hinv.
Qed.

(** C5.  Termination of the inner loops, for physical constants.  The bare
    loop returns for every current [I <> 0] (in particular every [I > 0]).
    In either mode the loop returns whenever, from some pass on, the
    velocity is positive for as long as the bar is on the rail.
    Conversely, in either mode, for a bar at rest (or moving backwards)
    short of the end of the rail, if the net force of every pass is [<= 0]
    then the velocity is never positive and the loop returns for no amount
    of fuel: it does not terminate. *)
Theorem inner_loop_termination (e : globals) :
  physical e ->
  (I e <> 0 -> exists fuel e', bare_loop fuel e = Some e') /\
  ((exists N, forall n, (N <= n)%nat ->
      (forall j, (j <= n)%nat -> barpos (after bare_body j e) < L e) ->
      0 < v (after bare_body n e)) ->
   exists fuel e', bare_loop fuel e = Some e') /\
  ((exists N, forall n, (N <= n)%nat ->
      (forall j, (j <= n)%nat -> barpos (after aug_body j e) < L e) ->
      0 < v (after aug_body n e)) ->
   exists fuel e', aug_loop fuel e = Some e') /\
  (barpos e < L e -> v e <= 0 ->
   (forall n, Fnet (after bare_body (S n) e) <= 0) ->
   (forall n, v (after bare_body n e) <= 0) /\
   (forall fuel, bare_loop fuel e = None)) /\
  (barpos e < L e -> v e <= 0 ->
   (forall n, Fnet (after aug_body (S n) e) <= 0) ->
   (forall n, v (after aug_body n e) <= 0) /\
   (forall fuel, aug_loop fuel e = None)).
Proof.
  intros Hp. pose proof Hp as (HD & Hw & Hm & Hk & Hdt).
  split; [|split; [|split; [|split]]].
  - apply bare_loop_terminates. exact Hp.
  - intros [N HN].
    destruct (classic (exists n, L e <= barpos (after bare_body n e)))
      as [[n Hn] | Hno].
    + apply (bare_loop_terminates_at e n Hn).
    + assert (Hon : forall n, barpos (after bare_body n e) < L e).
      { intros n. apply Rnot_le_lt. intros Hle. apply Hno.
        exists n. exact Hle. }
      destruct (bare_reaches_end e N Hp) as [n Hn].
      * apply HN; [lia|]. intros j _. apply Hon.
      * apply (bare_loop_terminates_at e n Hn).
  - intros [N HN].
    destruct (classic (exists n, L e <= barpos (after aug_body n e)))
      as [[n Hn] | Hno].
    + apply (aug_loop_terminates_at e n Hn).
    + exfalso.
      assert (Hon : forall n, barpos (after aug_body n e) < L e).
      { intros n. apply Rnot_le_lt. intros Hle. apply Hno.
        exists n. exact Hle. }
      destruct (positive_velocity_unbounded_position
                  (2 * Muover2pi e * loggap e) 9.8 (m e) (dt e)
                  (fun n => I (after aug_body n e))
                  (fun n => Fnet (after aug_body n e))
                  (fun n => v (after aug_body n e))
                  (fun n => barpos (after aug_body n e)) N) with (B := L e)
        as [n Hn].
      * pose proof (loggap_pos e HD Hw). nra.
      * exact Hm.
      * exact Hdt.
      * intros n. apply (after_aug_rec n e).
      * intros n. apply (after_aug_rec n e).
      * intros n. apply (after_aug_rec n e).
      * intros n. apply (after_aug_rec n e).
      * intros n Hn. apply HN; [exact Hn|]. intros j _. apply Hon.
      * pose proof (Hon n). lra.
  - apply bare_loop_stuck; assumption.
  - apply aug_loop_stuck; assumption.
Qed.

(** The first pass of the augmented loop from rest: the current is not
    touched, since the induced current is proportional to the velocity. *)
Lemma aug_first_pass (e : globals) :
  v e = 0 ->
  let s := after aug_body 1 e in
  I s = I e /\
  Fnet s = 2 * Muover2pi e * (I e ^ 2) * loggap e - 9.8 * m e /\
  v s = Fnet s / m e * dt e /\
  barpos s = barpos e + v s * dt e.
Proof.
  intros Hv s. destruct (after_aug_rec 0 e) as (HI & HF & Hv' & Hx).
  fold s in HI, HF, Hv', Hx. rewrite after_0 in HI, Hv', Hx.
  rewrite Hv in HI, Hv'.
  assert (HI' : I s = I e) by (rewrite HI; ring).
  rewrite HI' in HF. repeat split; auto.
  - rewrite HF. ring.
  - rewrite Hv'. ring.
Qed.

(** Two runs.  With the notebook's constants, a step [dt = 1] and
    10000 A, the augmented loop leaves the rail in its first pass: the
    velocity is positive for as long as the bar is on the rail.  With the
    notebook's constants and no current the bare loop never returns. *)
Lemma inner_loop_termination_witness :
  (exists fuel e',
     aug_loop fuel (mkGlobals 0.15 0.1 10 1 10000 0 1 0 0 2e-7 0 0 0)
     = Some e') /\
  (forall fuel,
     bare_loop fuel (mkGlobals 0.15 0.1 10 1 0 0 0.00001 0 0 2e-7 0 0 0)
     = None).
Proof.
  split.
  - set (e := mkGlobals 0.15 0.1 10 1 10000 0 1 0 0 2e-7 0 0 0).
    assert (Hp : physical e) by (unfold physical; simpl; lra).
    assert (Hlam : 1.38 < loggap e < 1.39)
      by (apply loggap_notebook_bounds; reflexivity).
    apply (inner_loop_termination e Hp).
    exists 1%nat. intros n Hn Hon. exfalso.
    pose proof (Hon 1%nat Hn) as H1.
    destruct (aug_first_pass e eq_refl) as (_ & HF & Hv & Hx).
    rewrite Hx, Hv, HF in H1. simpl in H1. lra.
  - set (e := mkGlobals 0.15 0.1 10 1 0 0 0.00001 0 0 2e-7 0 0 0).
    assert (Hp : physical e) by (unfold physical; simpl; lra).
    apply (inner_loop_termination e Hp).
    + simpl. lra.
    + simpl. lra.
    + intros n. destruct (after_bare_rec n e) as (HF & _).
      rewrite HF. simpl. lra.
Defined.

(** ** No current: the loops never return *)

Lemma after_aug_no_current (e : globals) :
  I e = 0 -> forall n, I (after aug_body n e) = 0.
Proof.
  intros HI n. induction n as [|n IH].
  - rewrite after_0. exact HI.
  - destruct (after_aug_rec n e) as (H & _). rewrite H, IH. ring.
Qed.

(** C6, as the claim states it, fails: with the notebook's values and
    [I = 0] the bare loop returns nothing, however much fuel it is given;
    no cap stops it and no failure is reported. *)
Lemma no_current_never_reported :
  ~ exists fuel r, bare_loop fuel (set_I 0 notebook_globals) = Some r.
Proof.
  intros (fuel & r & H).
  assert (Hnone : bare_loop fuel (set_I 0 notebook_globals) = None).
  { apply bare_loop_stuck; [simpl; lra | simpl; lra | simpl; lra | simpl; lra |].
    intros n. destruct (after_bare_rec n (set_I 0 notebook_globals)) as (HF & _).
    rewrite HF. simpl. lra. }
  congruence.
Qed.

(** C6, amended.  The loops have no iteration or time cap, so a run that
    cannot leave the rail is not detected: for a bar at rest (or moving
    backwards) short of the end of the rail, with [I = 0] neither the bare
    nor the augmented loop returns for any amount of fuel, and the same
    holds in augmented mode for every current whose net force stays
    [<= 0] in every pass. *)
Theorem no_cap_no_return (e : globals) :
  0 < m e -> 0 < dt e -> barpos e < L e -> v e <= 0 ->
  (I e = 0 ->
   forall fuel, bare_loop fuel e = None /\ aug_loop fuel e = None) /\
  ((forall n, Fnet (after aug_body (S n) e) <= 0) ->
   forall fuel, aug_loop fuel e = None).
Proof.
  intros Hm Hdt Hx Hv. split.
  - intros HI fuel. split.
    + apply bare_loop_stuck; auto.
      intros n. destruct (after_bare_rec n e) as (HF & _).
      rewrite HF, HI. simpl. lra.
    + apply aug_loop_stuck; auto.
      intros n. destruct (after_aug_rec n e) as (_ & HF & _).
      rewrite HF, (after_aug_no_current e HI). simpl. lra.
  - intros HF. apply aug_loop_stuck; auto.
Qed.

(** The notebook's values with no current: a thousand passes are not
    enough, in either mode. *)
Lemma no_cap_no_return_witness :
  bare_loop 1000 (set_I 0 notebook_globals) = None /\
  aug_loop 1000 (set_I 0 notebook_globals) = None.
Proof.
  apply (no_cap_no_return (set_I 0 notebook_globals)); simpl; lra.
Defined.

(** ** The current in the augmented loop *)

(** C1, as the claim states it, fails.  In the notebook's own augmented
    run (cell 31 started from cell 30), the second pass does not change
    the current by [dt] times the rate
    [-2*Muover2pi*I*(ln(D+w/2) - ln(w/2))*v]. *)
Lemma aug_current_step_is_not_dt_times_rate :
  I (after aug_body 2 (reset_bar search_start))
  <> I (after aug_body 1 (reset_bar search_start))
     + dt (after aug_body 1 (reset_bar search_start))
       * (- 2 * Muover2pi (after aug_body 1 (reset_bar search_start))
          * I (after aug_body 1 (reset_bar search_start))
          * (ln (D (after aug_body 1 (reset_bar search_start))
                 + w (after aug_body 1 (reset_bar search_start)) / 2)
             - ln (w (after aug_body 1 (reset_bar search_start)) / 2))
          * v (after aug_body 1 (reset_bar search_start))).
Proof.
  set (e := reset_bar search_start).
  set (s := after aug_body 1 e).
  assert (Hlam : 1.38 < loggap e < 1.39)
    by (apply loggap_notebook_bounds; reflexivity).
  destruct (aug_first_pass e eq_refl) as (HI & HF & Hv & _). fold s in HI, HF, Hv.
  destruct (after_aug_rec 1 e) as (HI2 & _). fold s in HI2.
  destruct (after_aug_frame 1 e) as (Hc & _). fold s in Hc.
  pose proof (same_constants_loggap _ _ Hc) as Hl. unfold loggap in Hl.
  rewrite Hl. fold (loggap e).
  destruct Hc as (_&_&_&_&Hdt&Hk&_). rewrite Hdt, Hk, HI2, HI.
  rewrite Hv, HF. simpl. 
  set (lam := loggap e) in *.
  intros Habs.
  assert (Hpos : 0 < 2 * 2e-7 * lam * 100000
                     * ((2 * 2e-7 * (100000 * (100000 * 1)) * lam - 9.8 * 1)
                        / 1 * 0.00001)).
  { apply Rmult_lt_0_compat; [nra|]. lra. }
  nra.
Qed.

(** C1, amended.  Every pass of the augmented loop first replaces the
    current by [I + induced], where
    [induced = -2*Muover2pi*I*(ln(D+w/2) - ln(w/2))*v] is computed from the
    velocity and the current of the previous pass and is not multiplied by
    [dt]; the force of the pass is then computed from the new current, and
    the velocity from that force. *)
Theorem aug_current_update (e : globals) (n : nat) :
  let s := after aug_body n e in
  let s' := after aug_body (S n) e in
  let induced :=
    - 2 * Muover2pi s * I s * (ln (D s + w s / 2) - ln (w s / 2)) * v s in
  s' = aug_body s /\
  I s' = I s + induced /\
  Fnet s' = 2 * Muover2pi s * ((I s + induced) ^ 2)
            * (ln (D s + w s / 2) - ln (w s / 2)) - 9.8 * m s /\
  v s' = v s + Fnet s' / m s * dt s.
Proof.
  intros s s' induced. unfold s', induced, s. rewrite after_S.
  split; [reflexivity|].
  rewrite aug_body_v, aug_body_Fnet, aug_body_I. unfold loggap.
  repeat split; ring.
Qed.

(** C9, as the claim states it, fails.  With the notebook's values and a
    current of 1000 A the magnetic force is below the weight, the first
    pass of the augmented loop leaves the bar moving backwards, and the
    second pass, taken while the bar is still on the rail, raises the
    current. *)
Lemma aug_current_can_increase :
  barpos (set_I 1000 notebook_globals) < L (set_I 1000 notebook_globals) /\
  barpos (after aug_body 1 (set_I 1000 notebook_globals))
    < L (after aug_body 1 (set_I 1000 notebook_globals)) /\
  I (after aug_body 1 (set_I 1000 notebook_globals))
    < I (after aug_body 2 (set_I 1000 notebook_globals)).
Proof.
  set (e := set_I 1000 notebook_globals).
  set (s := after aug_body 1 e).
  assert (Hlam : 1.38 < loggap e < 1.39)
    by (apply loggap_notebook_bounds; reflexivity).
  destruct (aug_first_pass e eq_refl) as (HI & HF & Hv & Hx).
  fold s in HI, HF, Hv, Hx.
  destruct (after_aug_rec 1 e) as (HI2 & _). fold s in HI2.
  destruct (after_aug_frame 1 e) as ((_&_&HL&_) & _). fold s in HL.
  set (lam := loggap e) in *.
  assert (HvS : v s < 0) by (rewrite Hv, HF; simpl; lra).
  split; [simpl; lra|]. split.
  - rewrite HL, Hx. remember (v s) as vs. simpl. lra.
  - rewrite HI2, HI. remember (v s) as vs. simpl.
    assert (0 < 2 * 2e-7 * lam * 1000 * - vs).
    { apply Rmult_lt_0_compat; [nra | lra]. }
    lra.
Qed.

(** C9, amended.  The bare loop never writes the current: it is the same
    after every number of passes.  In the augmented loop, for a physical
    geometry, a pass does not raise the current exactly when the current
    and the velocity it starts from satisfy [I * v >= 0] (so in
    particular while both are non-negative); a pass entered with [I > 0]
    and [v < 0] raises it. *)
Theorem current_from_pass_to_pass (e : globals) :
  0 < Muover2pi e -> 0 < D e -> 0 < w e ->
  (forall n, I (after bare_body n e) = I e) /\
  (forall n,
     I (after aug_body (S n) e) <= I (after aug_body n e) <->
     0 <= I (after aug_body n e) * v (after aug_body n e)) /\
  (forall n,
     0 < I (after aug_body n e) -> v (after aug_body n e) < 0 ->
     I (after aug_body n e) < I (after aug_body (S n) e)).
Proof.
  intros Hk HD Hw. pose proof (loggap_pos e HD Hw) as Hl.
  assert (Hc : 0 < 2 * Muover2pi e * loggap e) by nra.
  split; [|split].
  - intros n. apply (after_bare_frame n e).
  - intros n. destruct (after_aug_rec n e) as (HI & _). rewrite HI.
    set (c := 2 * Muover2pi e * loggap e) in *.
    set (p := I (after aug_body n e) * v (after aug_body n e)).
    replace (c * I (after aug_body n e) * v (after aug_body n e))
      with (c * p) by (unfold p; ring).
    split; intros H; nra.
  - intros n HIpos Hvneg. destruct (after_aug_rec n e) as (HI & _). rewrite HI.
    set (c := 2 * Muover2pi e * loggap e) in *.
    assert (0 < c * I (after aug_body n e) * - v (after aug_body n e)).
    { apply Rmult_lt_0_compat; [nra | lra]. }
    lra.
Qed.

Lemma current_from_pass_to_pass_witness :
  I (after bare_body 3 notebook_globals) = I notebook_globals /\
  (I (after aug_body 1 notebook_globals) <= I (after aug_body 0 notebook_globals)
   <-> 0 <= I (after aug_body 0 notebook_globals)
            * v (after aug_body 0 notebook_globals)).
Proof.
  assert (H : 0 < Muover2pi notebook_globals /\ 0 < D notebook_globals /\
              0 < w notebook_globals) by (simpl; lra).
  destruct H as (Hk & HD & Hw).
  split.
  - apply (current_from_pass_to_pass notebook_globals Hk HD Hw).
  - apply (current_from_pass_to_pass notebook_globals Hk HD Hw).
Defined.

(** ** Exit velocity against trial current *)

(** C7, as the claim states it, fails in bare mode.  With the notebook's
    values and [dt = 1], a current of 4000 A needs two passes to clear the
    rail and leaves with the velocity of two passes; 4300 A clears it in
    one pass and leaves with the lower velocity of that single pass. *)
Lemma larger_current_lower_exit_velocity :
  exists r1 r2,
    bare_loop 3 (coarse_globals 4000 0) = Some r1 /\
    bare_loop 3 (coarse_globals 4300 0) = Some r2 /\
    0 < I (coarse_globals 4000 0) < I (coarse_globals 4300 0) /\
    v r2 < v r1.
Proof.
  set (e1 := coarse_globals 4000 0). set (e2 := coarse_globals 4300 0).
  assert (Hlam1 : 1.38 < loggap e1 < 1.39)
    by (apply loggap_notebook_bounds; reflexivity).
  assert (Hlam2 : 1.38 < loggap e2 < 1.39)
    by (apply loggap_notebook_bounds; reflexivity).
  assert (Hll : loggap e2 = loggap e1) by reflexivity.
  exists (after bare_body 2 e1), (after bare_body 1 e2).
  split; [|split; [|split]].
  - apply bare_loop_returns; [| |lia].
    + intros j Hj. rewrite after_bare_barpos. unfold bare_dv.
      assert (Hc : j = 0%nat \/ j = 1%nat) by lia.
      destruct Hc as [-> | ->]; simpl; lra.
    + rewrite after_bare_barpos. unfold bare_dv. simpl. lra.
  - apply bare_loop_returns; [| |lia].
    + intros j Hj. assert (j = 0%nat) by lia. subst j.
      rewrite after_0. simpl. lra.
    + rewrite after_bare_barpos. unfold bare_dv. simpl. lra.
  - simpl. lra.
  - rewrite !after_bare_v. unfold bare_dv. rewrite Hll. simpl. lra.
Qed.

Lemma bare_dv_increasing (e1 e2 : globals) :
  physical e1 -> same_constants e1 e2 -> 0 < I e1 < I e2 ->
  0 < bare_dv e1 < bare_dv e2.
Proof.
  intros Hp Hc HI. pose proof Hp as (HD & Hw & Hm & Hk & Hdt).
  assert (HI1 : I e1 <> 0) by lra.
  pose proof (bare_dv_pos e1 Hp HI1) as Hpos. split; [exact Hpos|].
  unfold bare_dv in *. rewrite (same_constants_loggap _ _ Hc).
  destruct Hc as (_&_&_&Hm'&Hdt'&Hk'&_). rewrite Hm', Hdt', Hk'.
  pose proof (loggap_pos e1 HD Hw) as Hl.
  assert (Hsq : I e1 ^ 2 < I e2 ^ 2) by (simpl; nra).
  assert (Hq : 0 < 2 * Muover2pi e1 * loggap e1 / m e1 * dt e1).
  { apply Rmult_lt_0_compat; [|exact Hdt].
    apply Rdiv_lt_0_compat; [nra | exact Hm]. }
  replace (2 * Muover2pi e1 * I e1 ^ 2 * loggap e1 / m e1 * dt e1)
    with (I e1 ^ 2 * (2 * Muover2pi e1 * loggap e1 / m e1 * dt e1))
    by (field; lra).
  replace (2 * Muover2pi e1 * I e2 ^ 2 * loggap e1 / m e1 * dt e1)
    with (I e2 ^ 2 * (2 * Muover2pi e1 * loggap e1 / m e1 * dt e1))
    by (field; lra).
  apply Rmult_lt_compat_r; assumption.
Qed.

(** C7, amended; bare mode.  Take two runs that differ only in their
    trial currents [0 < I1 < I2], started from the same position, short of
    the end of the rail, with the same velocity.  After every number
    [n >= 1] of passes the run with [I2] is strictly faster and strictly
    further.  So it leaves the rail after no more passes than the run
    with [I1], and if both leave after the same number of passes its exit
    velocity is strictly larger.  (When it leaves earlier, its exit
    velocity can be the smaller one.) *)
Theorem bare_exit_velocity_order (e1 e2 : globals) :
  physical e1 -> same_constants e1 e2 ->
  barpos e2 = barpos e1 -> v e2 = v e1 -> barpos e1 < L e1 ->
  0 < I e1 < I e2 ->
  (forall n, (0 < n)%nat ->
     v (after bare_body n e1) < v (after bare_body n e2) /\
     barpos (after bare_body n e1) < barpos (after bare_body n e2)) /\
  (forall fuel r1 r2,
     bare_loop fuel e1 = Some r1 -> bare_loop fuel e2 = Some r2 ->
     exists n1 n2,
       r1 = after bare_body n1 e1 /\ r2 = after bare_body n2 e2 /\
       (forall j, (j < n1)%nat -> barpos (after bare_body j e1) < L e1) /\
       (forall j, (j < n2)%nat -> barpos (after bare_body j e2) < L e2) /\
       (n2 <= n1)%nat /\ (n1 = n2 -> v r1 < v r2)).
Proof.
  intros Hp Hc Hx Hv Hon HI.
  pose proof (bare_dv_increasing e1 e2 Hp Hc HI) as (Hdv1 & Hdv).
  pose proof Hp as (_ & _ & _ & _ & Hdt).
  pose proof Hc as (_&_&HL&_&Hdt2&_).
  assert (Hstep : forall n, (0 < n)%nat ->
     v (after bare_body n e1) < v (after bare_body n e2) /\
     barpos (after bare_body n e1) < barpos (after bare_body n e2)).
  { intros n Hn. rewrite !after_bare_v, !after_bare_barpos, Hx, Hv, Hdt2.
    assert (Hn' : 0 < INR n) by (apply lt_0_INR; exact Hn).
    assert (H1 : INR n * bare_dv e1 < INR n * bare_dv e2)
      by (apply Rmult_lt_compat_l; assumption).
    split; [lra|].
    assert (Hq : 0 < INR n * (INR n + 1) / 2 * dt e1).
    { apply Rmult_lt_0_compat; [|exact Hdt].
      apply Rdiv_lt_0_compat; [|lra]. apply Rmult_lt_0_compat; lra. }
    assert (H2 : INR n * (INR n + 1) / 2 * dt e1 * bare_dv e1
                 < INR n * (INR n + 1) / 2 * dt e1 * bare_dv e2)
      by (apply Rmult_lt_compat_l; assumption).
    lra. }
  split; [exact Hstep|].
  intros fuel r1 r2 H1 H2. unfold bare_loop in H1, H2.
  destruct (while_some_inv _ _ _ _ _ H1) as (n1 & _ & Hr1 & Hoff1 & Hon1).
  destruct (while_some_inv _ _ _ _ _ H2) as (n2 & _ & Hr2 & Hoff2 & Hon2).
  apply on_rail_false in Hoff1. apply on_rail_false in Hoff2.
  assert (Hon1' : forall j, (j < n1)%nat -> barpos (after bare_body j e1) < L e1).
  { intros j Hj. pose proof (Hon1 j Hj) as H. apply on_rail_true in H.
    destruct (after_bare_frame j e1) as ((_&_&HLj&_) & _).
    rewrite HLj in H. exact H. }
  assert (Hon2' : forall j, (j < n2)%nat -> barpos (after bare_body j e2) < L e2).
  { intros j Hj. pose proof (Hon2 j Hj) as H. apply on_rail_true in H.
    destruct (after_bare_frame j e2) as ((_&_&HLj&_) & _).
    rewrite HLj in H. exact H. }
  assert (Hn1 : (0 < n1)%nat).
  { destruct n1 as [|n1]; [|lia]. subst r1. rewrite after_0 in Hoff1. lra. }
  exists n1, n2. repeat split; auto.
  - destruct (Nat.le_gt_cases n2 n1) as [Hle | Hgt]; [exact Hle|]. exfalso.
    pose proof (Hon2' n1 Hgt) as Ha.
    destruct (Hstep n1 Hn1) as (_ & Hb).
    subst r1. destruct (after_bare_frame n1 e1) as ((_&_&HL1&_) & _).
    rewrite HL1 in Hoff1. lra.
  - intros Heq. subst n2 r1 r2. apply Hstep. exact Hn1.
Qed.

(** The notebook's values, with half the notebook's current against the
    notebook's current. *)
Lemma bare_exit_velocity_order_witness :
  v (after bare_body 1 (set_I 5000 notebook_globals))
    < v (after bare_body 1 notebook_globals) /\
  barpos (after bare_body 1 (set_I 5000 notebook_globals))
    < barpos (after bare_body 1 notebook_globals).
Proof.
  apply (bare_exit_velocity_order (set_I 5000 notebook_globals)
           notebook_globals); [| | | | | | lia].
  - unfold physical. simpl. lra.
  - unfold same_constants. simpl. repeat split; reflexivity.
  - reflexivity.
  - reflexivity.
  - simpl. lra.
  - simpl. lra.
Defined.

(** ** The current search *)

Lemma bare_loop_frame (fuel : nat) (e e1 : globals) :
  bare_loop fuel e = Some e1 ->
  same_constants e e1 /\ I e1 = I e /\ t e1 = t e /\ I_start e1 = I_start e.
Proof.
  intros H. destruct (while_some_inv _ _ _ _ _ H) as (n & _ & -> & _).
  apply after_bare_frame.
Qed.

Lemma aug_loop_frame (fuel : nat) (e e1 : globals) :
  aug_loop fuel e = Some e1 ->
  same_constants e e1 /\ I_start e1 = I_start e /\
  exists n, e1 = after aug_body n e /\ t e1 = t e + INR n * dt e /\
            (barpos e < L e -> (0 < n)%nat).
Proof.
  intros H. destruct (while_some_inv _ _ _ _ _ H) as (n & _ & -> & Hoff & _).
  destruct (after_aug_frame n e) as (Hc & Hs & Ht).
  split; [exact Hc|]. split; [exact Hs|].
  exists n. split; [reflexivity|]. split; [exact Ht|].
  intros Hon. destruct n as [|n]; [|lia].
  rewrite after_0 in Hoff. apply on_rail_false in Hoff. lra.
Qed.

Lemma bare_search_again (n : nat) (e e1 : globals) :
  v e <= v_goal e -> bare_loop n (reset_bar e) = Some e1 ->
  bare_search (S n) e = bare_search n (bare_next e1).
Proof.
  intros Hv Hl. simpl. destruct (Rle_dec (v e) (v_goal e)); [|contradiction].
  rewrite Hl. reflexivity.
Qed.

Lemma bare_search_done (n : nat) (e : globals) :
  v_goal e < v e -> bare_search (S n) e = Some e.
Proof.
  intros Hv. simpl. destruct (Rle_dec (v e) (v_goal e)); [lra|reflexivity].
Qed.

Lemma aug_search_again (n : nat) (e e1 : globals) :
  v e <= v_goal e -> aug_loop n (reset_bar e) = Some e1 ->
  aug_search (S n) e = aug_search n (aug_next e1).
Proof.
  intros Hv Hl. simpl. destruct (Rle_dec (v e) (v_goal e)); [|contradiction].
  rewrite Hl. reflexivity.
Qed.

Lemma aug_search_done (n : nat) (e : globals) :
  v_goal e < v e -> aug_search (S n) e = Some e.
Proof.
  intros Hv. simpl. destruct (Rle_dec (v e) (v_goal e)); [lra|reflexivity].
Qed.

(** *** Runs are determined by the constants, the position, the velocity
    and the current *)

Lemma same_constants_sym (a b : globals) :
  same_constants a b -> same_constants b a.
Proof.
  unfold same_constants. intros (?&?&?&?&?&?&?). repeat split; congruence.
Qed.

Lemma bare_body_same_motion (a b : globals) :
  same_motion a b -> same_motion (bare_body a) (bare_body b).
Proof.
  intros (Hc & Hx & Hv & HI).
  assert (Hdv : bare_dv b = bare_dv a).
  { unfold bare_dv. rewrite (same_constants_loggap _ _ Hc), HI.
    destruct Hc as (_&_&_&Hm&Hdt&Hk&_). rewrite Hm, Hdt, Hk. reflexivity. }
  assert (Hv' : v (bare_body b) = v (bare_body a))
    by (rewrite !bare_body_v, Hv, Hdv; reflexivity).
  destruct (bare_body_frame a) as (Hca & HIa & _).
  destruct (bare_body_frame b) as (Hcb & HIb & _).
  split; [|split; [|split]].
  - apply (same_constants_trans _ b); [|exact Hcb].
    apply (same_constants_trans _ a); [apply same_constants_sym; exact Hca|].
    exact Hc.
  - rewrite !bare_body_barpos, Hv', Hx.
    destruct Hc as (_&_&_&_&Hdt&_). rewrite Hdt. reflexivity.
  - exact Hv'.
  - rewrite HIa, HIb. exact HI.
Qed.

Lemma aug_body_same_motion (a b : globals) :
  same_motion a b -> same_motion (aug_body a) (aug_body b).
Proof.
  intros (Hc & Hx & Hv & HI).
  pose proof (same_constants_loggap _ _ Hc) as Hlg.
  pose proof Hc as (_&_&_&Hm&Hdt&Hk&_).
  assert (HI' : I (aug_body b) = I (aug_body a))
    by (rewrite !aug_body_I, Hlg, HI, Hv, Hk; reflexivity).
  assert (HF' : Fnet (aug_body b) = Fnet (aug_body a))
    by (rewrite !aug_body_Fnet, HI', Hlg, Hk, Hm; reflexivity).
  assert (Hv' : v (aug_body b) = v (aug_body a))
    by (rewrite !aug_body_v, HF', Hv, Hm, Hdt; reflexivity).
  destruct (aug_body_frame a) as (Hca & _).
  destruct (aug_body_frame b) as (Hcb & _).
  split; [|split; [|split]].
  - apply (same_constants_trans _ b); [|exact Hcb].
    apply (same_constants_trans _ a); [apply same_constants_sym; exact Hca|].
    exact Hc.
  - rewrite !aug_body_barpos, Hv', Hx, Hdt. reflexivity.
  - exact Hv'.
  - exact HI'.
Qed.

(** Two runs from states with the same constants, position, velocity and
    current return together, after as many passes, with the same
    velocity, position and current. *)
Lemma while_same_motion (body : globals -> globals) :
  (forall a b, same_motion a b -> same_motion (body a) (body b)) ->
  forall fuel a b ra,
    same_motion a b -> while on_rail body fuel a = Some ra ->
    exists rb, while on_rail body fuel b = Some rb /\ same_motion ra rb.
Proof.
  intros Hbody fuel. induction fuel as [|fuel IH]; intros a b ra Hab H;
    [discriminate|].
  simpl in H |- *.
  assert (Hon : on_rail b = on_rail a).
  { destruct Hab as ((_&_&HL&_) & Hx & _). unfold on_rail.
    rewrite HL, Hx. reflexivity. }
  rewrite Hon. destruct (on_rail a).
  - apply (IH (body a) (body b) ra (Hbody a b Hab) H).
  - inversion H; subst ra. exists b. split; [reflexivity | exact Hab].
Qed.

Lemma trial_state_same_motion (e x : globals) (J : R) :
  same_constants e x -> I x = J ->
  same_motion (reset_bar x) (trial_state e J).
Proof.
  intros Hc HI. unfold same_motion, trial_state. split; [|split; [|split]].
  - apply same_constants_sym in Hc.
    destruct Hc as (?&?&?&?&?&?&?). unfold same_constants. simpl. tauto.
  - reflexivity.
  - reflexivity.
  - change (I (set_I J (reset_bar e))) with J.
    change (I (reset_bar x)) with (I x). symmetry. exact HI.
Qed.

(** The trials of a finished bare search, counted from the state [x] the
    search is in, on the trial states of any state [e] with the same
    constants. *)
Lemma bare_search_last_trial (fuel : nat) :
  forall x e e', same_constants e x -> v x <= v_goal x ->
  bare_search fuel x = Some e' ->
  exists n,
    (exists f r,
       bare_loop f (trial_state e (I x * 1.01 ^ n)) = Some r /\
       v_goal e < v r /\ report e' = (v r, I x * 1.01 ^ n)) /\
    (forall j, (j < n)%nat ->
       exists f r,
         bare_loop f (trial_state e (I x * 1.01 ^ j)) = Some r /\
         v r <= v_goal e).
Proof.
  induction fuel as [|fuel IH]; intros x e e' Hc Hv H; [discriminate|].
  simpl in H. destruct (Rle_dec (v x) (v_goal x)) as [_|Hn]; [|contradiction].
  destruct (bare_loop fuel (reset_bar x)) as [e1|] eqn:Hl; [|discriminate].
  destruct (bare_loop_frame _ _ _ Hl) as (Hc1 & HI1 & _).
  change (I (reset_bar x)) with (I x) in HI1.
  assert (Hcx : same_constants x (bare_next e1)).
  { clear - Hc1. destruct Hc1 as (?&?&?&?&?&?&?).
    unfold same_constants. simpl in *. tauto. }
  pose proof Hc as (_&_&_&_&_&_&Hge).
  pose proof Hcx as (_&_&_&_&_&_&Hgx).
  assert (HIn : I (bare_next e1) = I x * 1.01)
    by (change (I (bare_next e1)) with (I e1 * 1.01); rewrite HI1; reflexivity).
  (* the trial just run, on the trial state of [e] *)
  assert (H0 : I x = I x * 1.01 ^ 0) by (simpl; ring).
  destruct (while_same_motion bare_body bare_body_same_motion fuel
              (reset_bar x) (trial_state e (I x * 1.01 ^ 0)) e1
              (trial_state_same_motion e x _ Hc H0) Hl)
    as (r0 & Hl0 & (_ & _ & Hv0 & _)).
  fold (bare_loop fuel (trial_state e (I x * 1.01 ^ 0))) in Hl0.
  destruct (Rle_dec (v (bare_next e1)) (v_goal (bare_next e1))) as [Hle|Hgt].
  - destruct (IH (bare_next e1) e e'
                (same_constants_trans _ _ _ Hc Hcx) Hle H)
      as (n & (f & r & Hlr & Hwin & Hrep) & Hfail).
    assert (Hcur : forall j, I (bare_next e1) * 1.01 ^ j = I x * 1.01 ^ S j)
      by (intros j; rewrite HIn; simpl; ring).
    exists (S n). split.
    + exists f, r. rewrite <- Hcur. repeat split; assumption.
    + intros [|j] Hj.
      * exists fuel, r0. split; [exact Hl0|].
        change (v (bare_next e1)) with (v e1) in Hle.
        rewrite Hv0, <- Hge, <- Hgx. exact Hle.
      * destruct (Hfail j ltac:(lia)) as (f' & r' & Hl' & Hv').
        exists f', r'. rewrite <- Hcur. split; assumption.
  - destruct fuel as [|fuel]; [discriminate|].
    rewrite bare_search_done in H by lra. inversion H; subst e'.
    exists O. split.
    + exists (S fuel), r0. split; [exact Hl0|]. split.
      * change (v (bare_next e1)) with (v e1) in Hgt.
        rewrite Hv0, <- Hge, <- Hgx. lra.
      * unfold report. change (v (bare_next e1)) with (v e1).
        rewrite HIn, Hv0. f_equal. simpl. field. lra.
    + intros j Hj. lia.
Qed.

Lemma aug_search_last_trial (fuel : nat) :
  forall x e e', same_constants e x -> v x <= v_goal x ->
  I x = I_start x -> aug_search fuel x = Some e' ->
  exists n,
    (exists f r,
       aug_loop f (trial_state e (I x * 1.01 ^ n)) = Some r /\
       v_goal e < v r /\ report e' = (v r, I x * 1.01 ^ n)) /\
    (forall j, (j < n)%nat ->
       exists f r,
         aug_loop f (trial_state e (I x * 1.01 ^ j)) = Some r /\
         v r <= v_goal e).
Proof.
  induction fuel as [|fuel IH]; intros x e e' Hc Hv HIs H; [discriminate|].
  simpl in H. destruct (Rle_dec (v x) (v_goal x)) as [_|Hn]; [|contradiction].
  destruct (aug_loop fuel (reset_bar x)) as [e1|] eqn:Hl; [|discriminate].
  destruct (aug_loop_frame _ _ _ Hl) as (Hc1 & Hs1 & _).
  change (I_start (reset_bar x)) with (I_start x) in Hs1.
  assert (Hcx : same_constants x (aug_next e1)).
  { clear - Hc1. destruct Hc1 as (?&?&?&?&?&?&?).
    unfold same_constants. simpl in *. tauto. }
  pose proof Hc as (_&_&_&_&_&_&Hge).
  pose proof Hcx as (_&_&_&_&_&_&Hgx).
  assert (HIn : I (aug_next e1) = I x * 1.01).
  { change (I (aug_next e1)) with (I_start e1 * 1.01).
    rewrite Hs1, HIs. reflexivity. }
  assert (H0 : I x = I x * 1.01 ^ 0) by (simpl; ring).
  destruct (while_same_motion aug_body aug_body_same_motion fuel
              (reset_bar x) (trial_state e (I x * 1.01 ^ 0)) e1
              (trial_state_same_motion e x _ Hc H0) Hl)
    as (r0 & Hl0 & (_ & _ & Hv0 & _)).
  fold (aug_loop fuel (trial_state e (I x * 1.01 ^ 0))) in Hl0.
  destruct (Rle_dec (v (aug_next e1)) (v_goal (aug_next e1))) as [Hle|Hgt].
  - destruct (IH (aug_next e1) e e'
                (same_constants_trans _ _ _ Hc Hcx) Hle eq_refl H)
      as (n & (f & r & Hlr & Hwin & Hrep) & Hfail).
    assert (Hcur : forall j, I (aug_next e1) * 1.01 ^ j = I x * 1.01 ^ S j)
      by (intros j; rewrite HIn; simpl; ring).
    exists (S n). split.
    + exists f, r. rewrite <- Hcur. repeat split; assumption.
    + intros [|j] Hj.
      * exists fuel, r0. split; [exact Hl0|].
        change (v (aug_next e1)) with (v e1) in Hle.
        rewrite Hv0, <- Hge, <- Hgx. exact Hle.
      * destruct (Hfail j ltac:(lia)) as (f' & r' & Hl' & Hv').
        exists f', r'. rewrite <- Hcur. split; assumption.
  - destruct fuel as [|fuel]; [discriminate|].
    rewrite aug_search_done in H by lra. inversion H; subst e'.
    exists O. split.
    + exists (S fuel), r0. split; [exact Hl0|]. split.
      * change (v (aug_next e1)) with (v e1) in Hgt.
        rewrite Hv0, <- Hge, <- Hgx. lra.
      * unfold report. change (v (aug_next e1)) with (v e1).
        rewrite HIn, Hv0. f_equal. simpl. field. lra.
    + intros j Hj. lia.
Qed.

(** C2, amended.  A search that is entered (the velocity it starts from is
    not above the target) and terminates stops at the first trial that
    succeeds, and prints that trial.  Write [trial_state e J] for the
    state in which the search started in [e] begins a trial with the
    current [J]: the bar at rest at position 0, every constant as in [e].
    Then there is a number [n] of growth steps such that
    - the run of the trial with the current [I * 1.01^n] ends with a
      velocity above the target, and the two numbers printed are that
      velocity and that current [I * 1.01^n]: dividing by 1.01 undoes the
      growth step taken after the successful run;
    - every trial before it, with a current [I * 1.01^j], [j < n], ran to
      the end of the rail and ended at or below the target.
    So the current printed is the one of the successful trial, not of the
    trial before it.  In cell 31 the current grown is [I_start], which
    cell 30 makes equal to [I]. *)
Theorem search_reports_successful_trial (e : globals) :
  v e <= v_goal e ->
  (forall fuel e', bare_search fuel e = Some e' ->
     exists n,
       (exists f r,
          bare_loop f (trial_state e (I e * 1.01 ^ n)) = Some r /\
          v_goal e < v r /\ report e' = (v r, I e * 1.01 ^ n)) /\
       (forall j, (j < n)%nat ->
          exists f r,
            bare_loop f (trial_state e (I e * 1.01 ^ j)) = Some r /\
            v r <= v_goal e)) /\
  (I e = I_start e ->
   forall fuel e', aug_search fuel e = Some e' ->
     exists n,
       (exists f r,
          aug_loop f (trial_state e (I e * 1.01 ^ n)) = Some r /\
          v_goal e < v r /\ report e' = (v r, I e * 1.01 ^ n)) /\
       (forall j, (j < n)%nat ->
          exists f r,
            aug_loop f (trial_state e (I e * 1.01 ^ j)) = Some r /\
            v r <= v_goal e)).
Proof.
  intros Hv. split.
  - intros fuel e' H.
    apply (bare_search_last_trial fuel e e e' (same_constants_refl e) Hv H).
  - intros HI fuel e' H.
    apply (aug_search_last_trial fuel e e e' (same_constants_refl e) Hv HI H).
Qed.

(** The number [n] above is determined by the search: only one trial can
    be the first to succeed, so no other power of 1.01 fits the
    statement. *)
Lemma first_successful_trial_unique
      (body : globals -> globals) (e : globals) (J : R) (n n' : nat) :
  (exists f r, while on_rail body f (trial_state e (J * 1.01 ^ n)) = Some r /\
               v_goal e < v r) ->
  (forall j, (j < n)%nat ->
     exists f r, while on_rail body f (trial_state e (J * 1.01 ^ j)) = Some r /\
                 v r <= v_goal e) ->
  (exists f r, while on_rail body f (trial_state e (J * 1.01 ^ n')) = Some r /\
               v_goal e < v r) ->
  (forall j, (j < n')%nat ->
     exists f r, while on_rail body f (trial_state e (J * 1.01 ^ j)) = Some r /\
                 v r <= v_goal e) ->
  n = n'.
Proof.
  assert (Hclash : forall k,
    (exists f r, while on_rail body f (trial_state e (J * 1.01 ^ k)) = Some r /\
                 v_goal e < v r) ->
    (exists f r, while on_rail body f (trial_state e (J * 1.01 ^ k)) = Some r /\
                 v r <= v_goal e) -> False).
  { intros k (f1 & r1 & H1 & Hw) (f2 & r2 & H2 & Hl).
    apply (while_fuel_mono _ _ f1 (Nat.max f1 f2)) in H1; [|lia].
    apply (while_fuel_mono _ _ f2 (Nat.max f1 f2)) in H2; [|lia].
    rewrite H1 in H2. inversion H2; subst r2. lra. }
  intros Hwin Hfail Hwin' Hfail'.
  destruct (Nat.lt_trichotomy n n') as [Hlt | [Heq | Hgt]]; [|exact Heq|].
  - exfalso. apply (Hclash n Hwin). apply Hfail'. exact Hlt.
  - exfalso. apply (Hclash n' Hwin'). apply Hfail. exact Hgt.
Qed.

(** ** Trials that clear the rail in one pass *)

Lemma bare_one_pass_trial (b : globals) (fuel : nat) :
  barpos b = 0 -> v b = 0 -> 0 < L b -> L b <= bare_dv b * dt b ->
  (2 <= fuel)%nat ->
  bare_loop fuel b = Some (after bare_body 1 b) /\
  v (after bare_body 1 b) = bare_dv b.
Proof.
  intros Hx Hv HL Hd Hf. split.
  - apply bare_loop_returns; [| |lia].
    + intros j Hj. assert (j = 0%nat) by lia. subst j. rewrite after_0. lra.
    + rewrite after_bare_barpos, Hx, Hv. simpl. lra.
  - rewrite after_bare_v, Hv. simpl. lra.
Qed.

Lemma coarse_bare_dv (b : globals) :
  D b = 0.15 -> w b = 0.1 -> m b = 1 -> dt b = 1 -> Muover2pi b = 2e-7 ->
  bare_dv b = 4e-7 * (I b ^ 2) * ln 4.
Proof.
  intros HD Hw Hm Hdt Hk. unfold bare_dv.
  rewrite (loggap_notebook b HD Hw), Hm, Hdt, Hk. field.
Qed.

Lemma same_constants_bare_next (c e : globals) :
  same_constants c e -> same_constants c (bare_next e).
Proof. unfold same_constants. simpl. tauto. Qed.

(** One trial of the bare search with [dt = 1], [m = 1] and the notebook's
    geometry, for a current strong enough to clear the rail in a single
    pass: the run ends with the velocity [4e-7 * I^2 * ln 4]. *)
Lemma coarse_bare_trial (c x : globals) (f : nat) :
  same_constants c x ->
  D c = 0.15 -> w c = 0.1 -> m c = 1 -> dt c = 1 -> Muover2pi c = 2e-7 ->
  0 < L c -> L c <= 4e-7 * (I x ^ 2) * ln 4 ->
  exists e1,
    bare_loop (S (S f)) (reset_bar x) = Some e1 /\
    same_constants c (bare_next e1) /\
    I e1 = I x /\ v e1 = 4e-7 * (I x ^ 2) * ln 4 /\ v_goal e1 = v_goal c.
Proof.
  intros Hc HD Hw Hm Hdt Hk HL Hfar.
  pose proof Hc as (HD' & Hw' & HL' & Hm' & Hdt' & Hk' & Hg').
  assert (Hdv : bare_dv (reset_bar x) = 4e-7 * (I x ^ 2) * ln 4).
  { apply (coarse_bare_dv (reset_bar x)).
    - change (D (reset_bar x)) with (D x). rewrite HD'. exact HD.
    - change (w (reset_bar x)) with (w x). rewrite Hw'. exact Hw.
    - change (m (reset_bar x)) with (m x). rewrite Hm'. exact Hm.
    - change (dt (reset_bar x)) with (dt x). rewrite Hdt'. exact Hdt.
    - change (Muover2pi (reset_bar x)) with (Muover2pi x). rewrite Hk'.
      exact Hk. }
  destruct (bare_one_pass_trial (reset_bar x) (S (S f))) as (Hl & Hv1).
  - reflexivity.
  - reflexivity.
  - simpl. rewrite HL'. exact HL.
  - rewrite Hdv. simpl. rewrite HL', Hdt', Hdt. lra.
  - lia.
  - destruct (after_bare_frame 1 (reset_bar x)) as (Hc1 & HI1 & _).
    exists (after bare_body 1 (reset_bar x)).
    split; [exact Hl|]. split; [|split; [exact HI1|split]].
    + apply same_constants_bare_next.
      apply (same_constants_trans _ x); [exact Hc|].
      destruct Hc1 as (?&?&?&?&?&?&?). unfold same_constants. simpl in *. tauto.
    + rewrite Hv1. exact Hdv.
    + destruct Hc1 as (_&_&_&_&_&_&Hg1). rewrite Hg1. exact Hg'.
Qed.

(** The bare search on the notebook's values with [dt = 1], started at
    4300 A for a target of 10.3 m/s: the trial at 4300 A fails, the trial
    at 4343 A succeeds, and the search stops. *)
Lemma coarse_bare_search_run :
  exists e1 e2,
    I (reset_bar (coarse_globals 4300 10.3)) = 4300 /\
    bare_loop 3 (reset_bar (coarse_globals 4300 10.3)) = Some e1 /\
    v e1 <= v_goal e1 /\
    I (reset_bar (bare_next e1)) = 4343 /\
    bare_loop 2 (reset_bar (bare_next e1)) = Some e2 /\
    v_goal e2 < v e2 /\
    bare_search 4 (coarse_globals 4300 10.3) = Some (bare_next e2) /\
    report (bare_next e2) = (v e2, 4343).
Proof.
  pose proof ln4_lower as Hlo. pose proof ln4_upper as Hhi.
  assert (HI0 : I (coarse_globals 4300 10.3) = 4300) by reflexivity.
  assert (Hg0 : v_goal (coarse_globals 4300 10.3) = 10.3) by reflexivity.
  assert (HL0 : L (coarse_globals 4300 10.3) = 10) by reflexivity.
  destruct (coarse_bare_trial (coarse_globals 4300 10.3)
              (coarse_globals 4300 10.3) 1)
    as (e1 & Hl1 & Hc1 & HI1 & Hv1 & Hg1);
    [ apply same_constants_refl | reflexivity | reflexivity | reflexivity
    | reflexivity | reflexivity | rewrite HL0; lra
    | rewrite HL0, HI0; lra | ].
  rewrite HI0 in HI1, Hv1. rewrite Hg0 in Hg1.
  assert (HIx : I (bare_next e1) = 4343)
    by (change (I (bare_next e1)) with (I e1 * 1.01); rewrite HI1; lra).
  destruct (coarse_bare_trial (coarse_globals 4300 10.3) (bare_next e1) 0 Hc1)
    as (e2 & Hl2 & Hc2 & HI2 & Hv2 & Hg2);
    [ reflexivity | reflexivity | reflexivity | reflexivity | reflexivity
    | rewrite HL0; lra | rewrite HL0, HIx; lra | ].
  rewrite HIx in HI2, Hv2. rewrite Hg0 in Hg2.
  assert (Hfail : v e1 <= v_goal e1) by (rewrite Hv1, Hg1; lra).
  assert (Hwin : v_goal e2 < v e2) by (rewrite Hv2, Hg2; lra).
  exists e1, e2.
  split; [reflexivity|]. split; [exact Hl1|]. split; [exact Hfail|].
  split; [exact HIx|]. split; [exact Hl2|]. split; [exact Hwin|]. split.
  - rewrite (bare_search_again 3 (coarse_globals 4300 10.3) e1);
      [|rewrite Hg0; simpl; lra|exact Hl1].
    rewrite (bare_search_again 2 (bare_next e1) e2); [|exact Hfail|exact Hl2].
    apply bare_search_done. exact Hwin.
  - unfold report. change (v (bare_next e2)) with (v e2).
    change (I (bare_next e2)) with (I e2 * 1.01). rewrite HI2. f_equal. lra.
Qed.

(** C2, as the claim states it, fails.  In the run above the search prints
    4343 A, the current of the trial that succeeded, and not 4300 A, the
    current of the trial before it, one growth step below. *)
Lemma reported_current_is_not_the_previous_trial :
  exists e1 e2 r,
    I (reset_bar (coarse_globals 4300 10.3)) = 4300 /\
    bare_loop 3 (reset_bar (coarse_globals 4300 10.3)) = Some e1 /\
    v e1 <= v_goal e1 /\
    I (reset_bar (bare_next e1)) = 4343 /\
    bare_loop 2 (reset_bar (bare_next e1)) = Some e2 /\
    v_goal e2 < v e2 /\
    bare_search 4 (coarse_globals 4300 10.3) = Some r /\
    report r = (v e2, 4343) /\
    snd (report r) <> 4300 /\
    snd (report r) <> 4343 / 1.01.
Proof.
  destruct coarse_bare_search_run
    as (e1 & e2 & H1 & H2 & H3 & H4 & H5 & H6 & H7 & H8).
  exists e1, e2, (bare_next e2).
  repeat (split; [assumption|]).
  rewrite H8. simpl. split; lra.
Qed.

Lemma search_reports_successful_trial_witness :
  exists e' n f r,
    bare_search 4 (coarse_globals 4300 10.3) = Some e' /\
    bare_loop f (trial_state (coarse_globals 4300 10.3)
                   (I (coarse_globals 4300 10.3) * 1.01 ^ n)) = Some r /\
    v_goal (coarse_globals 4300 10.3) < v r /\
    report e' = (v r, I (coarse_globals 4300 10.3) * 1.01 ^ n).
Proof.
  destruct coarse_bare_search_run
    as (e1 & e2 & _ & _ & _ & _ & _ & _ & Hrun & _).
  assert (Hv : v (coarse_globals 4300 10.3) <= v_goal (coarse_globals 4300 10.3))
    by (simpl; lra).
  destruct (search_reports_successful_trial (coarse_globals 4300 10.3) Hv)
    as (Hbare & _).
  destruct (Hbare 4%nat (bare_next e2) Hrun)
    as (n & (f & r & Hl & Hwin & Hrep) & _).
  exists (bare_next e2), n, f, r.
  split; [exact Hrun|]. split; [exact Hl|]. split; [exact Hwin | exact Hrep].
Defined.

Lemma aug_loop_returns (e : globals) (n : nat) :
  (forall j, (j < n)%nat -> barpos (after aug_body j e) < L e) ->
  L e <= barpos (after aug_body n e) ->
  forall fuel, (n < fuel)%nat -> aug_loop fuel e = Some (after aug_body n e).
Proof.
  intros Hj Hn fuel Hf. unfold aug_loop. apply while_exits; auto.
  - intros j Hlt. apply on_rail_true.
    destruct (after_aug_frame j e) as ((_&_&HL&_) & _). rewrite HL. auto.
  - apply on_rail_false.
    destruct (after_aug_frame n e) as ((_&_&HL&_) & _). rewrite HL. auto.
Qed.

Lemma aug_one_pass_trial (b : globals) (fuel : nat) :
  barpos b = 0 -> v b = 0 -> 0 < L b ->
  L b <= (2 * Muover2pi b * (I b ^ 2) * loggap b - 9.8 * m b)
         / m b * dt b * dt b ->
  (2 <= fuel)%nat ->
  aug_loop fuel b = Some (after aug_body 1 b) /\
  v (after aug_body 1 b)
  = (2 * Muover2pi b * (I b ^ 2) * loggap b - 9.8 * m b) / m b * dt b.
Proof.
  intros Hx Hv HL Hd Hf.
  destruct (aug_first_pass b Hv) as (_ & HF & Hv1 & Hx1).
  rewrite HF in Hv1. split; [|exact Hv1].
  apply aug_loop_returns; [| |lia].
  - intros j Hj. assert (j = 0%nat) by lia. subst j. rewrite after_0. lra.
  - rewrite Hx1, Hv1, Hx. lra.
Qed.

(** C3: the code at a failing input.  The augmented search on the
    notebook's values with [dt = 1], started at 10000 A for the notebook's
    target of 2733 m/s.  The first trial leaves the rail in one pass, too
    slowly, and the search goes on to a second trial.  The inner loop of
    that second trial starts with the position and the velocity reset and
    the current at the new trial value, but with the time at 1: the time
    spent in the failed run is carried over. *)
Theorem second_trial_starts_with_elapsed_time :
  exists e1,
    t (reset_bar (coarse_globals 10000 2733)) = 0 /\
    aug_loop 2 (reset_bar (coarse_globals 10000 2733)) = Some e1 /\
    v e1 <= v_goal e1 /\
    aug_search 3 (coarse_globals 10000 2733)
    = aug_search 2 (aug_next e1) /\
    barpos (reset_bar (aug_next e1)) = 0 /\
    v (reset_bar (aug_next e1)) = 0 /\
    I (reset_bar (aug_next e1)) = 10000 * 1.01 /\
    t (reset_bar (aug_next e1)) = 1.
Proof.
  set (e := coarse_globals 10000 2733).
  set (b := reset_bar e).
  assert (Hlam : 1.38 < loggap b < 1.39)
    by (apply loggap_notebook_bounds; reflexivity).
  destruct (aug_one_pass_trial b 2) as (Hl & Hv);
    [reflexivity | reflexivity | simpl; lra | simpl; lra | lia |].
  destruct (after_aug_frame 1 b) as ((_&_&_&_&_&_&Hg) & Hs & Ht).
  remember (after aug_body 1 b) as e1 eqn:He1.
  assert (Hfail : v e1 <= v_goal e1) by (rewrite Hv, Hg; simpl; lra).
  exists e1. split; [reflexivity|]. split; [exact Hl|].
  split; [exact Hfail|]. split.
  - apply aug_search_again; [simpl; lra | exact Hl].
  - split; [reflexivity|]. split; [reflexivity|]. split.
    + simpl. rewrite Hs. reflexivity.
    + simpl. rewrite Ht. simpl. lra.
Qed.

(** The same, for every run: whenever a trial of the augmented search
    returns, the next trial starts with the position and the velocity at 0
    and the current at 1.01 times the previous trial current, but with a
    time strictly larger than the one the failed trial started with.  In
    the bare search the time is not advanced at all. *)
Lemma next_trial_state (e e1 : globals) (fuel : nat) :
  0 < dt e -> 0 < L e ->
  (aug_loop fuel (reset_bar e) = Some e1 ->
   barpos (reset_bar (aug_next e1)) = 0 /\
   v (reset_bar (aug_next e1)) = 0 /\
   I (reset_bar (aug_next e1)) = I_start e * 1.01 /\
   t e < t (reset_bar (aug_next e1))) /\
  (bare_loop fuel (reset_bar e) = Some e1 ->
   barpos (reset_bar (bare_next e1)) = 0 /\
   v (reset_bar (bare_next e1)) = 0 /\
   I (reset_bar (bare_next e1)) = I e * 1.01 /\
   t (reset_bar (bare_next e1)) = t e).
Proof.
  intros Hdt HL. split; intros H.
  - destruct (aug_loop_frame _ _ _ H) as (_ & Hs & n & _ & Ht & Hn).
    simpl in *. repeat split; auto; [rewrite Hs; reflexivity|].
    rewrite Ht. assert (0 < INR n) by (apply lt_0_INR, Hn; exact HL).
    assert (0 < INR n * dt e) by (apply Rmult_lt_0_compat; assumption). lra.
  - destruct (bare_loop_frame _ _ _ H) as (_ & HI & Ht & _).
    simpl in *. repeat split; auto. rewrite HI. reflexivity.
Qed.

(** ** Augmented against bare *)

(** C8, as the claim states it, fails.  With the notebook's values,
    [dt = 1], a start current of 10000 A and a target of 30 m/s, the first
    trial succeeds in both modes, and both searches print the start
    current: the augmented one is not strictly larger. *)
Lemma augmented_search_reports_same_current :
  exists rb ra,
    0 < v_goal (coarse_globals 10000 30) /\
    bare_search 3 (coarse_globals 10000 30) = Some rb /\
    aug_search 3 (coarse_globals 10000 30) = Some ra /\
    snd (report rb) = 10000 /\
    snd (report ra) = 10000 /\
    ~ snd (report rb) < snd (report ra).
Proof.
  set (e := coarse_globals 10000 30).
  set (b := reset_bar e).
  assert (Hlam : 1.38 < loggap b < 1.39)
    by (apply loggap_notebook_bounds; reflexivity).
  (* bare *)
  assert (Hdv : bare_dv b = 4e-7 * (10000 ^ 2) * ln 4)
    by (apply coarse_bare_dv; reflexivity).
  rewrite (loggap_notebook b eq_refl eq_refl) in Hlam.
  destruct (bare_one_pass_trial b 2) as (Hlb & Hvb);
    [reflexivity | reflexivity | simpl; lra | rewrite Hdv; simpl; lra | lia |].
  destruct (after_bare_frame 1 b) as ((_&_&_&_&_&_&Hgb) & HIb & _).
  remember (after bare_body 1 b) as eb eqn:Heb.
  (* augmented *)
  assert (Hl4 : loggap b = ln 4) by (apply loggap_notebook; reflexivity).
  destruct (aug_one_pass_trial b 2) as (Hla & Hva);
    [reflexivity | reflexivity | simpl; lra | rewrite Hl4; simpl; lra | lia |].
  rewrite Hl4 in Hva.
  destruct (after_aug_frame 1 b) as ((_&_&_&_&_&_&Hga) & Hsa & _).
  remember (after aug_body 1 b) as ea eqn:Hea.
  exists (bare_next eb), (aug_next ea).
  assert (Hb : snd (report (bare_next eb)) = 10000).
  { unfold report. simpl. rewrite HIb. simpl. lra. }
  assert (Ha : snd (report (aug_next ea)) = 10000).
  { unfold report. simpl. rewrite Hsa. simpl. lra. }
  split; [simpl; lra|]. split; [|split; [|split; [exact Hb|split; [exact Ha|]]]].
  - rewrite (bare_search_again 2 e eb); [|simpl; lra|exact Hlb].
    apply bare_search_done. simpl. rewrite Hvb, Hdv, Hgb. simpl. lra.
  - rewrite (aug_search_again 2 e ea); [|simpl; lra|exact Hla].
    apply aug_search_done. simpl. rewrite Hva, Hga. simpl. lra.
  - rewrite Ha, Hb. lra.
Qed.

(** One augmented pass against one bare pass, in the quantities the
    comparison needs: the square of the current and the force. *)
Lemma aug_current_square_shrinks (c i u : R) :
  0 <= c * u <= 2 -> (i - c * i * u) ^ 2 <= i ^ 2.
Proof.
  intros H. replace (i - c * i * u) with (i * (1 - c * u)) by ring.
  rewrite Rpow_mult_distr.
  set (p := c * u) in *.
  assert (Hp : 0 <= p * (2 - p)) by (apply Rmult_le_pos; lra).
  assert (Hq : (1 - p) ^ 2 = 1 - p * (2 - p)) by ring.
  pose proof (pow2_ge_0 i) as Hi. rewrite Hq.
  assert (0 <= i ^ 2 * (p * (2 - p))) by (apply Rmult_le_pos; assumption).
  lra.
Qed.

(** C8, amended.  The terms added in augmented mode only hold the bar
    back, pass by pass.  Start the augmented and the bare loop from the
    same state, with physical constants, and write
    [k = 2*Muover2pi*(ln(D+w/2) - ln(w/2))].  As long as every augmented
    pass so far was entered with a velocity [v] such that
    [0 <= k*v <= 2], the augmented current is no larger in size than the
    start current and, after every number [n >= 1] of passes, the
    augmented run is strictly slower and strictly behind the bare run; so
    it cannot leave the rail in fewer passes.  Nothing follows for the
    currents the two searches print, which can be equal. *)
Theorem augmented_run_is_behind (e : globals) (n : nat) :
  physical e ->
  (forall j, (j < n)%nat ->
     0 <= 2 * Muover2pi e * (ln (D e + w e / 2) - ln (w e / 2))
          * v (after aug_body j e) <= 2) ->
  I (after aug_body n e) ^ 2 <= I e ^ 2 /\
  ((0 < n)%nat ->
   v (after aug_body n e) < v (after bare_body n e) /\
   barpos (after aug_body n e) < barpos (after bare_body n e)).
Proof.
  intros Hp. pose proof Hp as (HD & Hw & Hm & Hk & Hdt).
  fold (loggap e). pose proof (loggap_pos e HD Hw) as Hl.
  set (k := 2 * Muover2pi e * loggap e).
  induction n as [|n IH]; intros Hrange.
  - rewrite after_0. split; [lra|lia].
  - destruct IH as (IHI & IHv); [intros j Hj; apply Hrange; lia|].
    pose proof (Hrange n ltac:(lia)) as Hn. fold k in Hn.
    destruct (after_aug_rec n e) as (HI & HF & Hv & Hx). fold k in HI, HF.
    destruct (after_bare_rec n e) as (HFb & Hvb & Hxb).
    assert (HI' : I (after aug_body (S n) e) ^ 2 <= I e ^ 2).
    { rewrite HI.
      pose proof (aug_current_square_shrinks k (I (after aug_body n e))
                    (v (after aug_body n e)) Hn). lra. }
    split; [exact HI'|]. intros _.
    assert (HFlt : Fnet (after aug_body (S n) e)
                   < Fnet (after bare_body (S n) e)).
    { rewrite HF, HFb.
      replace (2 * Muover2pi e * I e ^ 2 * loggap e) with (k * I e ^ 2)
        by (unfold k; ring).
      assert (0 < k) by (unfold k; nra).
      assert (k * I (after aug_body (S n) e) ^ 2 <= k * I e ^ 2)
        by (apply Rmult_le_compat_l; lra).
      lra. }
    assert (Hstep : Fnet (after aug_body (S n) e) / m e * dt e
                    < Fnet (after bare_body (S n) e) / m e * dt e).
    { apply Rmult_lt_compat_r; [exact Hdt|].
      apply Rmult_lt_compat_r; [apply Rinv_0_lt_compat; exact Hm|exact HFlt]. }
    assert (Hprev : v (after aug_body n e) <= v (after bare_body n e) /\
                    barpos (after aug_body n e) <= barpos (after bare_body n e)).
    { destruct n as [|n].
      - rewrite !after_0. lra.
      - destruct (IHv ltac:(lia)). lra. }
    assert (Hvlt : v (after aug_body (S n) e) < v (after bare_body (S n) e))
      by (rewrite Hv, Hvb; lra).
    split; [exact Hvlt|]. rewrite Hx, Hxb.
    assert (v (after aug_body (S n) e) * dt e
            < v (after bare_body (S n) e) * dt e)
      by (apply Rmult_lt_compat_r; assumption).
    lra.
Qed.

(** The first pass of the notebook's own searches, where both loops start
    from rest at 100000 A. *)
Lemma augmented_run_is_behind_witness :
  v (after aug_body 1 (reset_bar search_start))
    < v (after bare_body 1 (reset_bar search_start)) /\
  barpos (after aug_body 1 (reset_bar search_start))
    < barpos (after bare_body 1 (reset_bar search_start)).
Proof.
  assert (Hp : physical (reset_bar search_start))
    by (unfold physical; simpl; lra).
  apply (augmented_run_is_behind (reset_bar search_start) 1 Hp); [|lia].
  intros j Hj. assert (j = 0%nat) by lia. subst j.
  rewrite after_0. simpl. lra.
Defined.

(** ** The bare search can even print the larger current *)

(** One failing or succeeding trial of the bare search on the 51 m rail:
    a single pass, which leaves the bar with the velocity
    [4e-7 * I^2 * ln 4]. *)
Lemma long_rail_bare_trial (x : globals) (f : nat) :
  same_constants (long_rail_globals 10000) x -> v x <= 70 ->
  51 <= 4e-7 * (I x ^ 2) * ln 4 ->
  exists x',
    bare_search (S (S (S f))) x = bare_search (S (S f)) x' /\
    same_constants (long_rail_globals 10000) x' /\
    I x' = I x * 1.01 /\ v x' = 4e-7 * (I x ^ 2) * ln 4.
Proof.
  intros Hc Hv Hfar.
  assert (Hg0 : v_goal (long_rail_globals 10000) = 70) by reflexivity.
  assert (HL0 : L (long_rail_globals 10000) = 51) by reflexivity.
  destruct (coarse_bare_trial (long_rail_globals 10000) x f Hc)
    as (e1 & Hl & Hc1 & HI1 & Hv1 & Hg1);
    [ reflexivity | reflexivity | reflexivity | reflexivity | reflexivity
    | rewrite HL0; lra | rewrite HL0; exact Hfar | ].
  exists (bare_next e1). split; [|split; [exact Hc1|split]].
  - apply bare_search_again; [|exact Hl].
    destruct Hc as (_&_&_&_&_&_&Hg). rewrite Hg, Hg0. exact Hv.
  - change (I (bare_next e1)) with (I e1 * 1.01). rewrite HI1. reflexivity.
  - exact Hv1.
Qed.

Lemma growth_bounds (n : nat) :
  (n <= 11)%nat -> 1 <= (1.01 ^ n) ^ 2 <= 1.2448.
Proof.
  intros Hn. rewrite <- pow_mult.
  assert (H1 : 1 <= 1.01 ^ (n * 2)) by (apply pow_R1_Rle; lra).
  assert (H2 : 1.01 ^ (n * 2) <= 1.01 ^ 22) by (apply Rle_pow; [lra | lia]).
  assert (H3 : 1.01 ^ 22 <= 1.2448) by lra.
  lra.
Qed.

(** The first [k <= 12] trials of the bare search started at 10000 A all
    fail. *)
Lemma long_rail_bare_failures (k : nat) :
  (k <= 12)%nat -> forall f,
  exists x,
    bare_search (k + S (S (S f))) (long_rail_globals 10000)
    = bare_search (S (S (S f))) x /\
    same_constants (long_rail_globals 10000) x /\
    I x = 10000 * 1.01 ^ k /\ v x <= 70.
Proof.
  pose proof ln4_lower as Hlo. pose proof ln4_upper as Hhi.
  induction k as [|k IH]; intros Hk f.
  - exists (long_rail_globals 10000). split; [reflexivity|].
    split; [apply same_constants_refl|]. simpl. split; lra.
  - destruct (IH ltac:(lia) (S f)) as (x & Hrun & Hc & HI & Hv).
    pose proof (growth_bounds k ltac:(lia)) as Hg.
    assert (Hsq : I x ^ 2 = 100000000 * (1.01 ^ k) ^ 2)
      by (rewrite HI; ring).
    destruct (long_rail_bare_trial x (S f) Hc Hv) as (x' & Hstep & Hc' & HI' & Hv').
    { rewrite Hsq. nra. }
    exists x'. split; [|split; [exact Hc'|split]].
    + replace (S k + S (S (S f)))%nat with (k + S (S (S (S f))))%nat by lia.
      rewrite Hrun. exact Hstep.
    + rewrite HI', HI. simpl. ring.
    + rewrite Hv', Hsq. nra.
Qed.

(** The bare search on the 51 m rail runs thirteen trials and prints
    [10000 * 1.01^12] A. *)
Lemma long_rail_bare_search :
  exists rb,
    bare_search 16 (long_rail_globals 10000) = Some rb /\
    snd (report rb) = 10000 * 1.01 ^ 12.
Proof.
  pose proof ln4_lower as Hlo. pose proof ln4_upper as Hhi.
  destruct (long_rail_bare_failures 12 ltac:(lia) 1%nat)
    as (x & Hrun & Hc & HI & Hv).
  assert (Hsq : I x ^ 2 = 100000000 * 1.01 ^ 24) by (rewrite HI; ring).
  assert (Hpow : 1.2697 <= 1.01 ^ 24) by lra.
  destruct (long_rail_bare_trial x 1 Hc Hv) as (x' & Hstep & Hc' & HI' & Hv').
  { rewrite Hsq. nra. }
  exists x'. split.
  - change 16%nat with (12 + 4)%nat. rewrite Hrun, Hstep.
    apply bare_search_done.
    destruct Hc' as (_&_&_&_&_&_&Hg). rewrite Hg, Hv', Hsq. simpl v_goal. nra.
  - unfold report. simpl. rewrite HI', HI. lra.
Qed.

(** An augmented run on the 51 m rail from rest at 10000 A: the first
    pass stops short of the end, the second leaves the rail, and the bar
    then moves at more than 90 m/s. *)
Lemma long_rail_aug_run (b : globals) :
  same_constants (long_rail_globals 10000) b ->
  barpos b = 0 -> v b = 0 -> I b = 10000 ->
  exists s2, aug_loop 3 b = Some s2 /\ 90 <= v s2.
Proof.
  intros Hc Ex Ev EI.
  destruct Hc as (ED & Ew & EL & Em & Edt & Ek & _).
  simpl in ED, Ew, EL, Em, Edt, Ek.
  pose proof (loggap_notebook_bounds b ED Ew) as Hlam.
  destruct (aug_first_pass b Ev) as (HI1 & HF1 & Hv1 & Hx1).
  destruct (after_aug_rec 1 b) as (HI2 & HF2 & Hv2 & Hx2).
  remember (after aug_body 1 b) as s1 eqn:Hs1.
  remember (after aug_body 2 b) as s2 eqn:Hs2.
  remember (loggap b) as lam eqn:Hlameq.
  rewrite Ek, EI, Em in HF1. rewrite Em, Edt in Hv1. rewrite Ex, Edt in Hx1.
  rewrite Ek, HI1, EI in HI2. rewrite Ek, Em in HF2. rewrite Em, Edt in Hv2.
  rewrite Edt in Hx2. rewrite HF1 in Hv1.
  assert (Hv1b : 45.4 <= v s1 <= 45.8) by (rewrite Hv1; lra).
  assert (Hkv : 0 <= 2 * 2e-7 * lam * v s1 <= 0.00003).
  { split; [apply Rmult_le_pos; lra|].
    apply Rle_trans with (2 * 2e-7 * 1.39 * 45.8); [|lra].
    apply Rmult_le_compat; lra. }
  assert (HI2b : 9999.7 <= I s2 <= 10000).
  { rewrite HI2.
    replace (10000 - 2 * 2e-7 * lam * 10000 * v s1)
      with (10000 * (1 - 2 * 2e-7 * lam * v s1)) by ring.
    lra. }
  assert (Hsq : 99994000 <= I s2 ^ 2).
  { apply Rle_trans with (9999.7 ^ 2); [lra|].
    apply pow_incr. lra. }
  assert (HF2b : 45 <= Fnet s2).
  { rewrite HF2.
    assert (2 * 2e-7 * 1.38 * 99994000 <= 2 * 2e-7 * lam * I s2 ^ 2)
      by (apply Rmult_le_compat; lra).
    lra. }
  assert (Hv2b : 90 <= v s2) by (rewrite Hv2; lra).
  exists s2. split; [|exact Hv2b].
  rewrite Hs2. apply aug_loop_returns; [| |lia].
  - intros j Hj. assert (Hcase : j = 0%nat \/ j = 1%nat) by lia.
    destruct Hcase as [-> | ->].
    + rewrite after_0, Ex, EL. lra.
    + rewrite <- Hs1, Hx1, EL. lra.
  - rewrite <- Hs2, Hx2, Hx1, EL. lra.
Qed.

(** The augmented search on the same input stops at its first trial,
    which needs two passes and so leaves the rail faster than the single
    bare pass does. *)
Lemma long_rail_aug_search :
  exists ra,
    aug_search 4 (long_rail_globals 10000) = Some ra /\
    snd (report ra) = 10000.
Proof.
  destruct (long_rail_aug_run (reset_bar (long_rail_globals 10000)))
    as (s2 & Hloop & Hv2);
    [ unfold same_constants; simpl; tauto | reflexivity | reflexivity
    | reflexivity | ].
  destruct (aug_loop_frame _ _ _ Hloop) as ((_&_&_&_&_&_&Hg) & Hs & _).
  change (v_goal (reset_bar (long_rail_globals 10000))) with 70 in Hg.
  change (I_start (reset_bar (long_rail_globals 10000))) with 10000 in Hs.
  exists (aug_next s2). split.
  - rewrite (aug_search_again 3 (long_rail_globals 10000) s2);
      [|simpl; lra|exact Hloop].
    apply aug_search_done.
    change (v_goal (aug_next s2)) with (v_goal s2).
    change (v (aug_next s2)) with (v s2). rewrite Hg. lra.
  - unfold report, snd.
    change (I (aug_next s2)) with (I_start s2 * 1.01). rewrite Hs. lra.
Qed.

(** On the 51 m rail the bare search prints about 11268 A and the
    augmented search 10000 A: the augmented result is the smaller one. *)
Lemma bare_search_can_report_more_than_augmented :
  exists rb ra,
    bare_search 16 (long_rail_globals 10000) = Some rb /\
    aug_search 4 (long_rail_globals 10000) = Some ra /\
    snd (report ra) < snd (report rb).
Proof.
  destruct long_rail_bare_search as (rb & Hb & Hrb).
  destruct long_rail_aug_search as (ra & Ha & Hra).
  exists rb, ra. split; [exact Hb|]. split; [exact Ha|].
  rewrite Hra, Hrb. lra.
Qed.

(** * Further properties of the loops *)

(** ** Position and exit of a run *)

(** X1.  The bare loop in closed form.  After [n] passes from any state
    the velocity has gained [n] times [Fnet/m*dt], and the position is the
    start position plus [n] steps at the start velocity plus the
    triangular number [n(n+1)/2] of steps of that gain: the position is
    advanced with the velocity already updated. *)
Theorem bare_position_triangular (e : globals) (n : nat) :
  let gain := 2 * Muover2pi e * (I e ^ 2)
              * (ln (D e + w e / 2) - ln (w e / 2)) / m e * dt e in
  v (after bare_body n e) = v e + INR n * gain /\
  barpos (after bare_body n e)
  = barpos e + INR n * v e * dt e + INR n * (INR n + 1) / 2 * gain * dt e.
Proof.
  intros gain. split.
  - apply after_bare_v.
  - apply after_bare_barpos.
Qed.

(** X2.  A run that starts short of the end of the rail and returns has
    made at least one pass, ends at or past the end of the rail, and
    overshoots it by less than the distance of its last step, [v*dt]. *)
Theorem exit_overshoot (e e' : globals) (fuel : nat) :
  barpos e < L e ->
  bare_loop fuel e = Some e' \/ aug_loop fuel e = Some e' ->
  e' <> e /\ L e <= barpos e' /\ barpos e' - v e' * dt e < L e.
Proof.
  intros Hon [H | H].
  - destruct (while_some_inv _ _ _ _ _ H) as (n & _ & -> & Hoff & Hrail).
    apply on_rail_false in Hoff.
    destruct (after_bare_frame n e) as ((_&_&HL&_) & _). rewrite HL in Hoff.
    destruct n as [|n]; [rewrite after_0 in Hoff; lra|].
    split; [|split; [exact Hoff|]].
    + intros Heq. rewrite Heq in Hoff. lra.
    + destruct (after_bare_rec n e) as (_ & _ & Hx). rewrite Hx.
      pose proof (Hrail n ltac:(lia)) as Hn. apply on_rail_true in Hn.
      destruct (after_bare_frame n e) as ((_&_&HLn&_) & _).
      rewrite HLn in Hn. lra.
  - destruct (while_some_inv _ _ _ _ _ H) as (n & _ & -> & Hoff & Hrail).
    apply on_rail_false in Hoff.
    destruct (after_aug_frame n e) as ((_&_&HL&_) & _). rewrite HL in Hoff.
    destruct n as [|n]; [rewrite after_0 in Hoff; lra|].
    split; [|split; [exact Hoff|]].
    + intros Heq. rewrite Heq in Hoff. lra.
    + destruct (after_aug_rec n e) as (_ & _ & _ & Hx). rewrite Hx.
      pose proof (Hrail n ltac:(lia)) as Hn. apply on_rail_true in Hn.
      destruct (after_aug_frame n e) as ((_&_&HLn&_) & _).
      rewrite HLn in Hn. lra.
Qed.

Lemma exit_overshoot_witness :
  exists e1,
    bare_loop 2 (reset_bar (coarse_globals 4300 0)) = Some e1 /\
    e1 <> reset_bar (coarse_globals 4300 0) /\
    L (reset_bar (coarse_globals 4300 0)) <= barpos e1 /\
    barpos e1 - v e1 * dt (reset_bar (coarse_globals 4300 0))
      < L (reset_bar (coarse_globals 4300 0)).
Proof.
  pose proof ln4_lower as Hlo.
  assert (HL0 : L (coarse_globals 4300 0) = 10) by reflexivity.
  assert (HI0 : I (coarse_globals 4300 0) = 4300) by reflexivity.
  destruct (coarse_bare_trial (coarse_globals 4300 0)
              (coarse_globals 4300 0) 0)
    as (e1 & Hl & _);
    [ apply same_constants_refl | reflexivity | reflexivity | reflexivity
    | reflexivity | reflexivity | rewrite HL0; lra
    | rewrite HL0, HI0; lra | ].
  exists e1. split; [exact Hl|].
  apply (exit_overshoot (reset_bar (coarse_globals 4300 0)) e1 2).
  - change (barpos (reset_bar (coarse_globals 4300 0))) with 0.
    change (L (reset_bar (coarse_globals 4300 0))) with 10. lra.
  - left. exact Hl.
Defined.

(** X3.  The exit velocity of the bare loop, bracketed.  For a run from
    rest that returns, with acceleration [a = Fnet/m] and per-pass gain
    [c = a*dt], the exit velocity [v] satisfies
    [v*(v - c) < 2*a*(L - barpos0) <= v*(v + c)]: it is the continuous
    value [sqrt (2*a*distance)] up to one pass's gain. *)
Theorem bare_exit_velocity_bracket (e e' : globals) (fuel : nat) :
  physical e -> v e = 0 -> barpos e < L e ->
  bare_loop fuel e = Some e' ->
  let a := 2 * Muover2pi e * (I e ^ 2)
           * (ln (D e + w e / 2) - ln (w e / 2)) / m e in
  let c := a * dt e in
  v e' * (v e' - c) < 2 * a * (L e - barpos e) <= v e' * (v e' + c).
Proof.
  intros Hp Hv Hon H a c. pose proof Hp as (HD & Hw & Hm & Hk & Hdt).
  assert (Hc : c = bare_dv e) by reflexivity.
  assert (HI : I e <> 0).
  { intros HI0.
    assert (Hnone : bare_loop fuel e = None).
    { apply bare_loop_stuck; auto; [lra|].
      intros n. destruct (after_bare_rec n e) as (HF & _).
      rewrite HF, HI0. simpl. lra. }
    congruence. }
  pose proof (bare_dv_pos e Hp HI) as Hcpos. rewrite <- Hc in Hcpos.
  assert (Ha : 0 < a).
  { unfold c in Hcpos.
    destruct (Rle_or_lt a 0) as [Hle|Hlt]; [|exact Hlt].
    assert (a * dt e <= 0) by nra. lra. }
  destruct (while_some_inv _ _ _ _ _ H) as (n & _ & -> & Hoff & Hrail).
  apply on_rail_false in Hoff.
  destruct (after_bare_frame n e) as ((_&_&HL&_) & _). rewrite HL in Hoff.
  destruct n as [|n]; [rewrite after_0 in Hoff; lra|].
  pose proof (Hrail n ltac:(lia)) as Hn. apply on_rail_true in Hn.
  destruct (after_bare_frame n e) as ((_&_&HLn&_) & _). rewrite HLn in Hn.
  rewrite after_bare_barpos, Hv, <- Hc in Hoff, Hn.
  rewrite after_bare_v, Hv, <- Hc. rewrite S_INR in *.
  set (k := INR n) in *.
  assert (E1 : (0 + (k + 1) * c) * (0 + (k + 1) * c - c)
               = 2 * a * (k * (k + 1) / 2 * c * dt e))
    by (unfold c; field).
  assert (E2 : (0 + (k + 1) * c) * (0 + (k + 1) * c + c)
               = 2 * a * ((k + 1) * (k + 1 + 1) / 2 * c * dt e))
    by (unfold c; field).
  rewrite E1, E2. split.
  - apply Rmult_lt_compat_l; lra.
  - apply Rmult_le_compat_l; lra.
Qed.

Lemma bare_exit_velocity_bracket_witness :
  exists e1,
    bare_loop 2 (reset_bar (coarse_globals 4300 0)) = Some e1 /\
    2 * (2 * 2e-7 * (4300 ^ 2) * (ln (0.15 + 0.1 / 2) - ln (0.1 / 2)) / 1)
      * (10 - 0)
    <= v e1 * (v e1 + 2 * 2e-7 * (4300 ^ 2)
                      * (ln (0.15 + 0.1 / 2) - ln (0.1 / 2)) / 1 * 1).
Proof.
  pose proof ln4_lower as Hlo.
  assert (HL0 : L (coarse_globals 4300 0) = 10) by reflexivity.
  assert (HI0 : I (coarse_globals 4300 0) = 4300) by reflexivity.
  destruct (coarse_bare_trial (coarse_globals 4300 0)
              (coarse_globals 4300 0) 0)
    as (e1 & Hl & _);
    [ apply same_constants_refl | reflexivity | reflexivity | reflexivity
    | reflexivity | reflexivity | rewrite HL0; lra
    | rewrite HL0, HI0; lra | ].
  exists e1. split; [exact Hl|].
  assert (Hp : physical (reset_bar (coarse_globals 4300 0)))
    by (unfold physical; simpl; lra).
  assert (Hon : barpos (reset_bar (coarse_globals 4300 0))
                < L (reset_bar (coarse_globals 4300 0))) by (simpl; lra).
  apply (bare_exit_velocity_bracket (reset_bar (coarse_globals 4300 0)) e1 2
           Hp eq_refl Hon Hl).
Defined.

(** ** The bare search always comes to an end *)

Lemma bare_search_fuel_mono (fuel : nat) :
  forall fuel' e r, bare_search fuel e = Some r -> (fuel <= fuel')%nat ->
  bare_search fuel' e = Some r.
Proof.
  induction fuel as [|fuel IH]; intros fuel' e r H Hle; [discriminate|].
  destruct fuel' as [|fuel']; [lia|]. simpl in H |- *.
  destruct (Rle_dec (v e) (v_goal e)); [|exact H].
  destruct (bare_loop fuel (reset_bar e)) as [e1|] eqn:Hl; [|discriminate].
  unfold bare_loop in Hl |- *.
  rewrite (while_fuel_mono _ _ fuel fuel' _ _ Hl) by lia.
  apply IH; [exact H | lia].
Qed.

Lemma physical_reset_bar (x : globals) : physical x -> physical (reset_bar x).
Proof. unfold physical. simpl. tauto. Qed.

(** A trial of the bare search on a rail of positive length ends with at
    least the velocity gained in one pass. *)
Lemma bare_trial_velocity (x e1 : globals) (fuel : nat) :
  physical x -> 0 < L x -> bare_loop fuel (reset_bar x) = Some e1 ->
  bare_dv x <= v e1 /\ same_constants x e1 /\ I e1 = I x.
Proof.
  intros Hp HL H.
  destruct (while_some_inv _ _ _ _ _ H) as (n & _ & -> & Hoff & _).
  apply on_rail_false in Hoff.
  destruct (after_bare_frame n (reset_bar x)) as (Hc & HI & _).
  pose proof Hc as (_&_&HLn&_). rewrite HLn in Hoff.
  destruct n as [|n]; [rewrite after_0 in Hoff; simpl in Hoff; lra|].
  split; [|split; [|exact HI]].
  - rewrite after_bare_v.
    change (v (reset_bar x)) with 0.
    change (bare_dv (reset_bar x)) with (bare_dv x).
    pose proof (bare_dv_nonneg x Hp) as Hdv.
    assert (1 <= INR (S n)) by (rewrite S_INR; pose proof (pos_INR n); lra).
    nra.
  - destruct Hc as (?&?&?&?&?&?&?). unfold same_constants. simpl in *. tauto.
Qed.

Lemma bare_dv_next (x e1 : globals) :
  same_constants x e1 -> I e1 = I x -> 0 < m x ->
  bare_dv (bare_next e1) = bare_dv x * 1.0201.
Proof.
  intros Hc HI Hm. unfold bare_dv.
  change (loggap (bare_next e1)) with (loggap e1).
  rewrite (same_constants_loggap _ _ Hc).
  change (I (bare_next e1)) with (I e1 * 1.01).
  change (Muover2pi (bare_next e1)) with (Muover2pi e1).
  change (m (bare_next e1)) with (m e1). change (dt (bare_next e1)) with (dt e1).
  destruct Hc as (_&_&_&Hm'&Hdt'&Hk'&_). rewrite Hm', Hdt', Hk', HI.
  assert (E : (I x * 1.01) ^ 2 = I x ^ 2 * 1.0201)
    by (rewrite Rpow_mult_distr; f_equal; lra).
  rewrite E. field. lra.
Qed.

Lemma growth_unbounded (a B : R) : 0 < a -> exists k, B < a * 1.0201 ^ k.
Proof.
  intros Ha.
  destruct (Pow_x_infinity 1.0201) with (b := B / a + 1) as [N HN].
  - rewrite Rabs_pos_eq; lra.
  - exists N. pose proof (HN N (Nat.le_refl N)) as H.
    rewrite Rabs_pos_eq in H by (apply pow_le; lra).
    assert (B / a < 1.0201 ^ N) by lra.
    apply (Rmult_lt_compat_l a) in H0; [|exact Ha].
    replace (a * (B / a)) with B in H0 by (field; lra). exact H0.
Qed.

Lemma bare_search_terminates_within (k : nat) :
  forall x, physical x -> I x <> 0 -> 0 < L x ->
  v_goal x < bare_dv x * 1.0201 ^ k ->
  exists fuel r, bare_search fuel x = Some r.
Proof.
  induction k as [|k IH]; intros x Hp HI HL Hk.
  - destruct (Rle_dec (v x) (v_goal x)) as [Hle|Hgt].
    + destruct (bare_loop_terminates (reset_bar x) (physical_reset_bar x Hp) HI)
        as (f1 & e1 & H1).
      destruct (bare_trial_velocity x e1 f1 Hp HL H1) as (Hv1 & Hc1 & _).
      exists (S (S f1)), (bare_next e1).
      rewrite (bare_search_again (S f1) x e1 Hle).
      * apply bare_search_done.
        change (v (bare_next e1)) with (v e1).
        change (v_goal (bare_next e1)) with (v_goal e1).
        destruct Hc1 as (_&_&_&_&_&_&Hg). rewrite Hg. simpl in Hk. lra.
      * unfold bare_loop in *. apply (while_fuel_mono _ _ f1); [exact H1|lia].
    + exists 1%nat, x. apply bare_search_done. lra.
  - destruct (Rle_dec (v x) (v_goal x)) as [Hle|Hgt].
    + destruct (bare_loop_terminates (reset_bar x) (physical_reset_bar x Hp) HI)
        as (f1 & e1 & H1).
      destruct (bare_trial_velocity x e1 f1 Hp HL H1) as (_ & Hc1 & HI1).
      pose proof Hp as (_ & _ & Hm & _).
      assert (Hc' : same_constants x (bare_next e1))
        by (apply same_constants_bare_next; exact Hc1).
      destruct (IH (bare_next e1)) as (f2 & r & H2).
      * apply (same_constants_physical x); assumption.
      * change (I (bare_next e1)) with (I e1 * 1.01). rewrite HI1. nra.
      * destruct Hc' as (_&_&HL'&_). rewrite HL'. exact HL.
      * rewrite (bare_dv_next x e1 Hc1 HI1 Hm).
        destruct Hc' as (_&_&_&_&_&_&Hg). rewrite Hg.
        simpl in Hk. lra.
      * exists (S (Nat.max f1 f2)), r.
        rewrite (bare_search_again (Nat.max f1 f2) x e1 Hle).
        -- apply (bare_search_fuel_mono f2); [exact H2|lia].
        -- unfold bare_loop in *.
           apply (while_fuel_mono _ _ f1); [exact H1|lia].
    + exists 1%nat, x. apply bare_search_done. lra.
Qed.

(** X4.  The bare search (cell 25) terminates: for physical constants, a
    rail of positive length and a start current [I <> 0], whatever the
    target velocity, it returns after finitely many trials.  Every trial
    runs to the end of the rail, and each growth step multiplies the
    velocity gained per pass by [1.01^2], which a trial's exit velocity is
    never below. *)
Theorem bare_search_terminates (e : globals) :
  physical e -> I e <> 0 -> 0 < L e ->
  exists fuel r, bare_search fuel e = Some r.
Proof.
  intros Hp HI HL.
  destruct (growth_unbounded (bare_dv e) (v_goal e) (bare_dv_pos e Hp HI))
    as [k Hk].
  apply (bare_search_terminates_within k e Hp HI HL Hk).
Qed.

(** Cell 25 as the notebook runs it. *)
Lemma bare_search_terminates_witness :
  exists fuel r, bare_search fuel search_start = Some r.
Proof.
  apply (bare_search_terminates search_start).
  - unfold physical. simpl. lra.
  - simpl. lra.
  - simpl. lra.
Defined.

(** ** Searches that never return *)

(** X7.  A search that is entered with no current never returns, in either
    mode: its first trial runs forever.  (A rail of positive length, and
    [0 < m], [0 < dt].) *)
Theorem search_without_current_never_returns (e : globals) (fuel : nat) :
  0 < m e -> 0 < dt e -> 0 < L e -> v e <= v_goal e -> I e = 0 ->
  bare_search fuel e = None /\ aug_search fuel e = None.
Proof.
  intros Hm Hdt HL Hv HI.
  destruct fuel as [|fuel]; [split; reflexivity|]. simpl.
  destruct (Rle_dec (v e) (v_goal e)) as [_|Hn]; [|contradiction].
  assert (Hb : bare_loop fuel (reset_bar e) = None).
  { apply bare_loop_stuck; try assumption; [simpl; lra|].
    intros n. destruct (after_bare_rec n (reset_bar e)) as (HF & _).
    rewrite HF. change (I (reset_bar e)) with (I e). rewrite HI. simpl. lra. }
  assert (Ha : aug_loop fuel (reset_bar e) = None).
  { apply aug_loop_stuck; try assumption; [simpl; lra|].
    intros n. destruct (after_aug_rec n (reset_bar e)) as (_ & HF & _).
    rewrite HF, (after_aug_no_current (reset_bar e) HI).
    change (m (reset_bar e)) with (m e). simpl. lra. }
  rewrite Hb, Ha. split; reflexivity.
Qed.

Lemma search_without_current_never_returns_witness :
  bare_search 1000 (set_I 0 search_start) = None /\
  aug_search 1000 (set_I 0 search_start) = None.
Proof.
  apply (search_without_current_never_returns (set_I 0 search_start));
    simpl; lra.
Defined.

(** ** The search stops at the first trial that succeeds *)

Lemma same_constants_reset_bar (e : globals) : same_constants e (reset_bar e).
Proof. unfold same_constants. simpl. tauto. Qed.

(** X5.  The bare search is a linear search over the currents
    [I * 1.01^j]: when it returns, the current it prints is [I * 1.01^n]
    for the number [n] of growth steps taken before the last trial, the
    velocity it prints is above the target, and every earlier trial, at
    [I * 1.01^j] with [j < n] and from rest at position 0, ran to the end
    of the rail and came out at or below the target. *)
Theorem bare_search_first_success (fuel : nat) (e r : globals) :
  v e <= v_goal e -> bare_search fuel e = Some r ->
  exists n,
    snd (report r) = I e * 1.01 ^ n /\ v_goal e < fst (report r) /\
    forall j, (j < n)%nat ->
      exists b r' f,
        same_constants e b /\ barpos b = 0 /\ v b = 0 /\
        I b = I e * 1.01 ^ j /\
        bare_loop f b = Some r' /\ v r' <= v_goal e.
Proof.
  revert e r. induction fuel as [|fuel IH]; intros e r Hv H; [discriminate|].
  simpl in H. destruct (Rle_dec (v e) (v_goal e)) as [_|Hn]; [|contradiction].
  destruct (bare_loop fuel (reset_bar e)) as [e1|] eqn:Hl; [|discriminate].
  destruct (bare_loop_frame _ _ _ Hl) as (Hc1 & HI1 & _).
  change (I (reset_bar e)) with (I e) in HI1.
  assert (Hc : same_constants e (bare_next e1)).
  { apply same_constants_bare_next.
    apply (same_constants_trans _ (reset_bar e));
      [apply same_constants_reset_bar | exact Hc1]. }
  pose proof Hc as (_&_&_&_&_&_&Hg).
  destruct (Rle_dec (v (bare_next e1)) (v_goal (bare_next e1))) as [Hle|Hgt].
  - destruct (IH _ _ Hle H) as (n & Hrep & Hwin & Hfail).
    exists (S n). split; [|split].
    + rewrite Hrep. change (I (bare_next e1)) with (I e1 * 1.01).
      rewrite HI1. simpl. ring.
    + rewrite <- Hg. exact Hwin.
    + intros [|j] Hj.
      * exists (reset_bar e), e1, fuel.
        split; [apply same_constants_reset_bar|].
        split; [reflexivity|]. split; [reflexivity|].
        split; [simpl; ring|]. split; [exact Hl|].
        change (v (bare_next e1)) with (v e1) in Hle. rewrite <- Hg. exact Hle.
      * destruct (Hfail j ltac:(lia)) as (b & r' & f & Hcb & Hx & Hv0 & HIb & Hlb & Hvb).
        exists b, r', f.
        split; [apply (same_constants_trans _ (bare_next e1)); assumption|].
        split; [exact Hx|]. split; [exact Hv0|]. split; [|split; [exact Hlb|]].
        -- rewrite HIb. change (I (bare_next e1)) with (I e1 * 1.01).
           rewrite HI1. simpl. ring.
        -- rewrite <- Hg. exact Hvb.
  - destruct fuel as [|fuel]; [discriminate|].
    rewrite bare_search_done in H by lra. inversion H; subst r.
    exists O. split; [|split].
    + unfold report, snd. change (I (bare_next e1)) with (I e1 * 1.01).
      rewrite HI1. simpl. field. lra.
    + rewrite <- Hg. unfold report, fst. lra.
    + intros j Hj. lia.
Qed.

Lemma bare_search_first_success_witness :
  exists r n,
    bare_search 4 (coarse_globals 4300 10.3) = Some r /\
    snd (report r) = I (coarse_globals 4300 10.3) * 1.01 ^ n /\
    v_goal (coarse_globals 4300 10.3) < fst (report r).
Proof.
  destruct coarse_bare_search_run
    as (e1 & e2 & _ & _ & _ & _ & _ & _ & Hrun & _).
  assert (Hv : v (coarse_globals 4300 10.3) <= v_goal (coarse_globals 4300 10.3))
    by (simpl; lra).
  destruct (bare_search_first_success 4 (coarse_globals 4300 10.3)
              (bare_next e2) Hv Hrun) as (n & Hrep & Hwin & _).
  exists (bare_next e2), n. split; [exact Hrun|]. split; assumption.
Defined.

Lemma same_constants_aug_next (c e : globals) :
  same_constants c e -> same_constants c (aug_next e).
Proof. unfold same_constants. simpl. tauto. Qed.

(** X6.  The same for the augmented search (cell 31), entered with
    [I = I_start] as cell 30 leaves it.  The current a failed run has
    depleted is thrown away: trial [j] starts from rest at position 0 with
    the current [I_start * 1.01^j], the current printed is that of the
    last trial, and every trial before it ran to the end of the rail and
    came out at or below the target. *)
Theorem aug_search_first_success (fuel : nat) (e r : globals) :
  v e <= v_goal e -> I e = I_start e -> aug_search fuel e = Some r ->
  exists n,
    snd (report r) = I_start e * 1.01 ^ n /\ v_goal e < fst (report r) /\
    forall j, (j < n)%nat ->
      exists b r' f,
        same_constants e b /\ barpos b = 0 /\ v b = 0 /\
        I b = I_start e * 1.01 ^ j /\
        aug_loop f b = Some r' /\ v r' <= v_goal e.
Proof.
  revert e r. induction fuel as [|fuel IH]; intros e r Hv HIs H; [discriminate|].
  simpl in H. destruct (Rle_dec (v e) (v_goal e)) as [_|Hn]; [|contradiction].
  destruct (aug_loop fuel (reset_bar e)) as [e1|] eqn:Hl; [|discriminate].
  destruct (aug_loop_frame _ _ _ Hl) as (Hc1 & Hs1 & _).
  change (I_start (reset_bar e)) with (I_start e) in Hs1.
  assert (Hc : same_constants e (aug_next e1)).
  { apply same_constants_aug_next.
    apply (same_constants_trans _ (reset_bar e));
      [apply same_constants_reset_bar | exact Hc1]. }
  pose proof Hc as (_&_&_&_&_&_&Hg).
  assert (Hst : I_start (aug_next e1) = I_start e * 1.01)
    by (change (I_start (aug_next e1)) with (I_start e1 * 1.01);
        rewrite Hs1; reflexivity).
  destruct (Rle_dec (v (aug_next e1)) (v_goal (aug_next e1))) as [Hle|Hgt].
  - destruct (IH _ _ Hle eq_refl H) as (n & Hrep & Hwin & Hfail).
    exists (S n). split; [|split].
    + rewrite Hrep, Hst. simpl. ring.
    + rewrite <- Hg. exact Hwin.
    + intros [|j] Hj.
      * exists (reset_bar e), e1, fuel.
        split; [apply same_constants_reset_bar|].
        split; [reflexivity|]. split; [reflexivity|].
        split; [change (I (reset_bar e)) with (I e); rewrite HIs; simpl; ring|].
        split; [exact Hl|].
        change (v (aug_next e1)) with (v e1) in Hle. rewrite <- Hg. exact Hle.
      * destruct (Hfail j ltac:(lia)) as (b & r' & f & Hcb & Hx & Hv0 & HIb & Hlb & Hvb).
        exists b, r', f.
        split; [apply (same_constants_trans _ (aug_next e1)); assumption|].
        split; [exact Hx|]. split; [exact Hv0|]. split; [|split; [exact Hlb|]].
        -- rewrite HIb, Hst. simpl. ring.
        -- rewrite <- Hg. exact Hvb.
  - destruct fuel as [|fuel]; [discriminate|].
    rewrite aug_search_done in H by lra. inversion H; subst r.
    exists O. split; [|split].
    + unfold report, snd. change (I (aug_next e1)) with (I_start e1 * 1.01).
      rewrite Hs1. simpl. field. lra.
    + rewrite <- Hg. unfold report, fst. lra.
    + intros j Hj. lia.
Qed.

Lemma aug_search_first_success_witness :
  exists r n,
    aug_search 4 (long_rail_globals 10000) = Some r /\
    snd (report r) = I_start (long_rail_globals 10000) * 1.01 ^ n /\
    v_goal (long_rail_globals 10000) < fst (report r).
Proof.
  destruct long_rail_aug_search as (ra & Hrun & _).
  assert (Hv : v (long_rail_globals 10000) <= v_goal (long_rail_globals 10000))
    by (simpl; lra).
  destruct (aug_search_first_success 4 (long_rail_globals 10000) ra
              Hv eq_refl Hrun) as (n & Hrep & Hwin & _).
  exists ra, n. split; [exact Hrun|]. split; assumption.
Defined.

(** ** The augmented loop: sign of the current, gravity, reversal *)

(** X9.  When the depletion overshoots.  With a physical geometry write
    [K = 2*Muover2pi*(ln(D+w/2) - ln(w/2))].  One pass multiplies the
    current by [1 - K*v], whatever [dt] is: a positive current turns
    negative exactly when the pass is entered with [K*v > 1].  As long as
    every pass is entered with [0 <= K*v < 1], the current stays positive
    and never exceeds the start current. *)
Theorem aug_current_sign (e : globals) (n : nat) :
  0 < Muover2pi e -> 0 < D e -> 0 < w e -> 0 < I e ->
  (I (aug_body e) < 0 <->
   1 < 2 * Muover2pi e * (ln (D e + w e / 2) - ln (w e / 2)) * v e) /\
  ((forall j, (j < n)%nat ->
      0 <= 2 * Muover2pi e * (ln (D e + w e / 2) - ln (w e / 2))
           * v (after aug_body j e) < 1) ->
   0 < I (after aug_body n e) <= I e).
Proof.
  intros Hk HD Hw HI. fold (loggap e).
  set (K := 2 * Muover2pi e * loggap e).
  split.
  - rewrite aug_body_I.
    replace (I e - 2 * Muover2pi e * I e * loggap e * v e)
      with (I e * (1 - K * v e)) by (unfold K; ring).
    split; intros H.
    + destruct (Rlt_or_le 1 (K * v e)) as [Hlt|Hle]; [exact Hlt|].
      assert (0 <= I e * (1 - K * v e)) by (apply Rmult_le_pos; lra). lra.
    + assert (0 < I e * (K * v e - 1)) by (apply Rmult_lt_0_compat; lra).
      lra.
  - induction n as [|n IH]; intros Hrange.
    + rewrite after_0. lra.
    + destruct IH as (IHpos & IHle); [intros j Hj; apply Hrange; lia|].
      pose proof (Hrange n ltac:(lia)) as Hn. fold K in Hn.
      destruct (after_aug_rec n e) as (HIn & _). fold K in HIn.
      rewrite HIn.
      replace (I (after aug_body n e)
               - K * I (after aug_body n e) * v (after aug_body n e))
        with (I (after aug_body n e) * (1 - K * v (after aug_body n e)))
        by ring.
      set (i := I (after aug_body n e)) in *.
      set (p := K * v (after aug_body n e)) in *.
      assert (0 < i * (1 - p)) by (apply Rmult_lt_0_compat; lra).
      assert (0 <= i * p) by (apply Rmult_le_pos; lra).
      lra.
Qed.

Lemma aug_current_sign_witness :
  0 < I (after aug_body 1 notebook_globals) <= I notebook_globals.
Proof.
  assert (H : 0 < Muover2pi notebook_globals /\ 0 < D notebook_globals /\
              0 < w notebook_globals /\ 0 < I notebook_globals)
    by (simpl; lra).
  destruct H as (Hk & HD & Hw & HI).
  apply (aug_current_sign notebook_globals 1 Hk HD Hw HI).
  intros j Hj. assert (j = 0%nat) by lia. subst j.
  rewrite after_0. change (v notebook_globals) with 0. lra.
Defined.

(** X10.  Gravity is the only brake on the velocity.  For physical
    constants the magnetic term of the force is never negative, so after
    [n] passes of the augmented loop the velocity is at least the
    free-fall value [v - 9.8*n*dt]; with no current it is exactly that,
    and the position is the free-fall position of the scheme. *)
Theorem aug_velocity_above_free_fall (e : globals) (n : nat) :
  physical e ->
  v e - 9.8 * INR n * dt e <= v (after aug_body n e) /\
  (I e = 0 ->
   v (after aug_body n e) = v e - 9.8 * INR n * dt e /\
   barpos (after aug_body n e)
   = barpos e + INR n * v e * dt e
     - 9.8 * (INR n * (INR n + 1) / 2) * dt e * dt e).
Proof.
  intros Hp. pose proof Hp as (HD & Hw & Hm & Hk & Hdt).
  pose proof (loggap_pos e HD Hw) as Hl.
  assert (Hstep : forall j,
            v (after aug_body (S j) e)
            = v (after aug_body j e)
              + (2 * Muover2pi e * loggap e * I (after aug_body (S j) e) ^ 2
                 / m e - 9.8) * dt e).
  { intros j. destruct (after_aug_rec j e) as (_ & HF & Hv & _).
    rewrite Hv, HF. field. lra. }
  split.
  - induction n as [|n IH].
    + rewrite after_0. simpl. lra.
    + rewrite Hstep, S_INR.
      assert (0 <= 2 * Muover2pi e * loggap e
                   * I (after aug_body (S n) e) ^ 2 / m e).
      { apply Rmult_le_pos; [|apply Rlt_le, Rinv_0_lt_compat; exact Hm].
        apply Rmult_le_pos; [nra | apply pow2_ge_0]. }
      assert (0 <= 2 * Muover2pi e * loggap e
                   * I (after aug_body (S n) e) ^ 2 / m e * dt e)
        by (apply Rmult_le_pos; lra).
      lra.
  - intros HI.
    assert (Hv : forall j, v (after aug_body j e) = v e - 9.8 * INR j * dt e).
    { induction j as [|j IH].
      - rewrite after_0. simpl. lra.
      - rewrite Hstep, IH, (after_aug_no_current e HI), S_INR.
        replace (2 * Muover2pi e * loggap e * 0 ^ 2 / m e) with 0
          by (field; lra).
        ring. }
    split; [apply Hv|].
    induction n as [|n IH].
    + rewrite after_0. simpl. lra.
    + destruct (after_aug_rec n e) as (_ & _ & _ & Hx).
      rewrite Hx, Hv, IH, S_INR. field.
Qed.

Lemma aug_velocity_above_free_fall_witness :
  v notebook_globals - 9.8 * INR 3 * dt notebook_globals
  <= v (after aug_body 3 notebook_globals).
Proof.
  assert (Hp : physical notebook_globals)
    by (unfold physical; simpl; lra).
  apply (aug_velocity_above_free_fall notebook_globals 3 Hp).
Defined.

Lemma globals_ext (a b : globals) :
  D a = D b -> w a = w b -> L a = L b -> m a = m b -> I a = I b ->
  barpos a = barpos b -> dt a = dt b -> t a = t b -> v a = v b ->
  Muover2pi a = Muover2pi b -> Fnet a = Fnet b -> I_start a = I_start b ->
  v_goal a = v_goal b -> a = b.
Proof.
  destruct a, b. simpl. intros. subst. reflexivity.
Qed.

Lemma bare_body_reverse (e : globals) :
  bare_body (reverse_current e) = reverse_current (bare_body e).
Proof.
  assert (HF : Fnet (bare_body (reverse_current e)) = Fnet (bare_body e)).
  { rewrite !bare_body_Fnet.
    change (I (reverse_current e)) with (- I e).
    change (Muover2pi (reverse_current e)) with (Muover2pi e).
    change (loggap (reverse_current e)) with (loggap e). ring. }
  assert (Hdv : bare_dv (reverse_current e) = bare_dv e).
  { unfold bare_dv. rewrite <- !bare_body_Fnet, HF. reflexivity. }
  assert (Hv : v (bare_body (reverse_current e)) = v (bare_body e)).
  { rewrite !bare_body_v, Hdv. reflexivity. }
  assert (Hx : barpos (bare_body (reverse_current e)) = barpos (bare_body e)).
  { rewrite !bare_body_barpos, Hv. reflexivity. }
  apply globals_ext; try reflexivity; assumption.
Qed.

Lemma aug_body_reverse (e : globals) :
  aug_body (reverse_current e) = reverse_current (aug_body e).
Proof.
  assert (HI : I (aug_body (reverse_current e)) = - I (aug_body e)).
  { rewrite !aug_body_I.
    change (I (reverse_current e)) with (- I e).
    change (Muover2pi (reverse_current e)) with (Muover2pi e).
    change (loggap (reverse_current e)) with (loggap e).
    change (v (reverse_current e)) with (v e). ring. }
  assert (HF : Fnet (aug_body (reverse_current e)) = Fnet (aug_body e)).
  { rewrite !aug_body_Fnet, HI.
    change (Muover2pi (reverse_current e)) with (Muover2pi e).
    change (loggap (reverse_current e)) with (loggap e).
    change (m (reverse_current e)) with (m e). ring. }
  assert (Hv : v (aug_body (reverse_current e)) = v (aug_body e)).
  { rewrite !aug_body_v, HF. reflexivity. }
  assert (Hx : barpos (aug_body (reverse_current e)) = barpos (aug_body e)).
  { rewrite !aug_body_barpos, Hv. reflexivity. }
  apply globals_ext; try reflexivity; assumption.
Qed.

Lemma while_reverse (body : globals -> globals) :
  (forall e, body (reverse_current e) = reverse_current (body e)) ->
  forall fuel e,
    while on_rail body fuel (reverse_current e)
    = option_map reverse_current (while on_rail body fuel e).
Proof.
  intros Hbody fuel. induction fuel as [|fuel IH]; intros e; [reflexivity|].
  simpl. change (on_rail (reverse_current e)) with (on_rail e).
  destruct (on_rail e); [|reflexivity].
  rewrite Hbody. apply IH.
Qed.

(** X11.  Reversing the current changes nothing but the sign of the
    current.  Both loop bodies read the current through [I^2] and through
    the update [I - K*I*v], so a run started with [-I] returns exactly
    when the run started with [I] does, after as many passes, with the
    same force, velocity, position and time and with the opposite
    current. *)
Theorem current_reversal (fuel : nat) (e : globals) :
  bare_loop fuel (reverse_current e)
  = option_map reverse_current (bare_loop fuel e) /\
  aug_loop fuel (reverse_current e)
  = option_map reverse_current (aug_loop fuel e) /\
  (forall r, v (reverse_current r) = v r /\
             barpos (reverse_current r) = barpos r /\
             Fnet (reverse_current r) = Fnet r /\
             t (reverse_current r) = t r /\
             I (reverse_current r) = - I r).
Proof.
  split; [|split].
  - apply (while_reverse bare_body bare_body_reverse).
  - apply (while_reverse aug_body aug_body_reverse).
  - intros r. repeat split.
Qed.

(** ** How far the bare search can go *)

Lemma bare_run_velocity (b r : globals) (f : nat) :
  physical b -> barpos b = 0 -> v b = 0 -> 0 < L b ->
  bare_loop f b = Some r -> bare_dv b <= v r.
Proof.
  intros Hp Hx Hv HL H.
  destruct (while_some_inv _ _ _ _ _ H) as (n & _ & -> & Hoff & _).
  apply on_rail_false in Hoff.
  destruct (after_bare_frame n b) as ((_&_&HLn&_) & _). rewrite HLn in Hoff.
  destruct n as [|n]; [rewrite after_0 in Hoff; lra|].
  rewrite after_bare_v, Hv.
  pose proof (bare_dv_nonneg b Hp) as Hdv.
  assert (1 <= INR (S n)) by (rewrite S_INR; pose proof (pos_INR n); lra).
  nra.
Qed.

Lemma bare_dv_grown (e b : globals) (j : nat) :
  same_constants e b -> I b = I e * 1.01 ^ j -> 0 < m e ->
  bare_dv b = bare_dv e * 1.0201 ^ j.
Proof.
  intros Hc HI Hm. unfold bare_dv.
  rewrite (same_constants_loggap _ _ Hc), HI.
  destruct Hc as (_&_&_&Hm'&Hdt'&Hk'&_). rewrite Hm', Hdt', Hk'.
  assert (E : (I e * 1.01 ^ j) ^ 2 = I e ^ 2 * 1.0201 ^ j).
  { rewrite Rpow_mult_distr. f_equal.
    rewrite <- pow_mult, Nat.mul_comm, pow_mult. f_equal. lra. }
  rewrite E. field. lra.
Qed.

(** X8.  An upper bound on the current the bare search finds.  For
    physical constants, a rail of positive length and a start current
    [I > 0]: if [k] growth steps are enough for the velocity gained in a
    single pass, [2*Muover2pi*(I*1.01^k)^2*(ln(D+w/2) - ln(w/2))/m*dt], to
    exceed the target, then the search takes at most [k] growth steps
    before its last trial, and prints a current between [I] and
    [I * 1.01^k]. *)
Theorem bare_search_upper_bound (fuel k : nat) (e r : globals) :
  physical e -> 0 < L e -> 0 < I e -> v e <= v_goal e ->
  v_goal e < 2 * Muover2pi e * ((I e * 1.01 ^ k) ^ 2)
             * (ln (D e + w e / 2) - ln (w e / 2)) / m e * dt e ->
  bare_search fuel e = Some r ->
  I e <= snd (report r) <= I e * 1.01 ^ k.
Proof.
  intros Hp HL HI Hv Hk H.
  assert (Hk' : v_goal e < bare_dv e * 1.0201 ^ k).
  { destruct Hp as (_ & _ & Hm & _).
    rewrite <- (bare_dv_grown e (set_I (I e * 1.01 ^ k) e) k);
      [exact Hk | unfold same_constants; simpl; tauto | reflexivity | exact Hm]. }
  clear Hk. revert k e r Hp HL HI Hv Hk' H.
  induction fuel as [|fuel IH]; intros k e r Hp HL HI Hv Hk H;
    [discriminate|].
  simpl in H. destruct (Rle_dec (v e) (v_goal e)) as [_|Hn]; [|contradiction].
  destruct (bare_loop fuel (reset_bar e)) as [e1|] eqn:Hl; [|discriminate].
  destruct (bare_trial_velocity e e1 fuel Hp HL Hl) as (Hv1 & Hc1 & HI1).
  pose proof Hp as (_ & _ & Hm & _).
  assert (Hc : same_constants e (bare_next e1))
    by (apply same_constants_bare_next; exact Hc1).
  pose proof Hc as (_&_&HL'&_&_&_&Hg).
  assert (HIn : I (bare_next e1) = I e * 1.01)
    by (change (I (bare_next e1)) with (I e1 * 1.01); rewrite HI1; reflexivity).
  assert (Hpow : 1 <= 1.01 ^ k) by (apply pow_R1_Rle; lra).
  destruct (Rle_dec (v (bare_next e1)) (v_goal (bare_next e1))) as [Hle|Hgt].
  - change (v (bare_next e1)) with (v e1) in Hle. rewrite Hg in Hle.
    destruct k as [|k]; [simpl in Hk; lra|].
    destruct (IH k (bare_next e1) r) as (Hlo & Hhi).
    + apply (same_constants_physical e); assumption.
    + rewrite HL'. exact HL.
    + rewrite HIn. lra.
    + change (v (bare_next e1)) with (v e1). rewrite Hg. exact Hle.
    + rewrite (bare_dv_next e e1 Hc1 HI1 Hm), Hg. simpl in Hk. lra.
    + exact H.
    + rewrite HIn in Hlo, Hhi.
      change (1.01 ^ S k) with (1.01 * 1.01 ^ k).
      replace (I e * (1.01 * 1.01 ^ k)) with (I e * 1.01 * 1.01 ^ k) by ring.
      split; lra.
  - destruct fuel as [|fuel]; [discriminate|].
    rewrite bare_search_done in H by lra. inversion H; subst r.
    unfold report, snd. rewrite HIn.
    replace (I e * 1.01 / 1.01) with (I e) by (field; lra).
    split; [lra|]. nra.
Qed.

Lemma bare_search_upper_bound_witness :
  exists r,
    bare_search 4 (coarse_globals 4300 10.3) = Some r /\
    I (coarse_globals 4300 10.3) <= snd (report r)
    <= I (coarse_globals 4300 10.3) * 1.01 ^ 1.
Proof.
  pose proof ln4_lower as Hlo.
  destruct coarse_bare_search_run
    as (e1 & e2 & _ & _ & _ & _ & _ & _ & Hrun & _).
  exists (bare_next e2). split; [exact Hrun|].
  apply (bare_search_upper_bound 4 1 (coarse_globals 4300 10.3) (bare_next e2)).
  - unfold physical. simpl. lra.
  - simpl. lra.
  - simpl. lra.
  - simpl. lra.
  - change (Muover2pi (coarse_globals 4300 10.3)) with 2e-7.
    change (I (coarse_globals 4300 10.3)) with 4300.
    change (m (coarse_globals 4300 10.3)) with 1.
    change (dt (coarse_globals 4300 10.3)) with 1.
    change (v_goal (coarse_globals 4300 10.3)) with 10.3.
    fold (loggap (coarse_globals 4300 10.3)).
    rewrite (loggap_notebook (coarse_globals 4300 10.3) eq_refl eq_refl). lra.
  - exact Hrun.
Defined.
